(** * wex-ocean/url-shortener: the link core of [js/main.js]

    A shallow embedding of the validation, slug allocation, link store and
    lifecycle functions of [js/main.js], and the properties of the
    specification proved (or refuted) on them.

    Conventions of the embedding.
    - A JavaScript string is a [string]: a sequence of code units, here the
      code units U+0000..U+00FF.  [toLowerCase] and [trim] are written out on
      that range.
    - A reading of the clock, [Date.now()], is an argument in milliseconds
      of the function that reads it: [now], and [later] where a handler reads
      the clock again after a check ([recordClickAndMaybeOpen], the toggle,
      the form of a new link, the rows of [renderLinks]).  The readings of
      one pass over the links (a sweep, a filter) are one instant, and so are
      the two sweeps that end [saveEditFromForm].
    - [clicks] is a [Number] that holds a count, an integer from 0 to
      [2^53]; [n + 1] on such a [Number] is [Number_succ].
    - [Math.random()] is an oracle [rnd : nat -> nat] of draws, and [uid()] an
      argument [newId] of [createLink].
    - [new URL(s)] is an argument [URL : string -> option Url] of
      [normalizeUrl] and of its callers ([None] when the constructor throws).
    - [state.links] is a [list Link] (index 0 first), [localStorage] under
      [LS_KEYS.links] is the field [stored] of the state.
    - Toasts, modals, the rendered table and [window.open] are not modelled;
      the value a handler shows or opens is its result. *)

From Stdlib Require Import ZArith Lia Bool List Ascii String.
From stdpp Require Import base option list strings.
Import ListNotations.

Local Open Scope string_scope.
Local Open Scope Z_scope.

(** ** JavaScript strings *)

Module JsString.

Definition code (c : ascii) : N := N_of_ascii c.

Definition in_range (lo hi : N) (c : ascii) : bool :=
  ((lo <=? code c) && (code c <=? hi))%N.

(** [a-z], [A-Z], [0-9] *)
Definition is_lower (c : ascii) : bool := in_range 97 122 c.
Definition is_upper (c : ascii) : bool := in_range 65 90 c.
Definition is_digit (c : ascii) : bool := in_range 48 57 c.

(** [[a-z0-9]] *)
Definition is_lower_alnum (c : ascii) : bool := is_lower c || is_digit c.

(** [[-_]] *)
Definition is_sep (c : ascii) : bool :=
  Ascii.eqb c "-" || Ascii.eqb c "_".

(** [[a-z0-9\-_]] *)
Definition is_slug_char (c : ascii) : bool := is_lower_alnum c || is_sep c.

(** [[a-zA-Z]] and [[a-zA-Z0-9+.-]] of [looksLikeScheme] *)
Definition is_alpha (c : ascii) : bool := is_lower c || is_upper c.
Definition is_scheme_char (c : ascii) : bool :=
  is_alpha c || is_digit c
  || Ascii.eqb c "+" || Ascii.eqb c "." || Ascii.eqb c "-".

(** White space and line terminators removed by [String.prototype.trim]:
    TAB, LF, VT, FF, CR, SP and NBSP. *)
Definition is_white (c : ascii) : bool :=
  in_range 9 13 c || N.eqb (code c) 32 || N.eqb (code c) 160.

(** [String.prototype.toLowerCase] on one code unit: A-Z, and the Latin-1
    capitals U+00C0..U+00DE without the multiplication sign U+00D7. *)
Definition lower_char (c : ascii) : ascii :=
  if is_upper c || (in_range 192 222 c && negb (N.eqb (code c) 215))
  then ascii_of_N (code c + 32)
  else c.

Fixpoint map (f : ascii -> ascii) (s : string) : string :=
  match s with
  | EmptyString => EmptyString
  | String c t => String (f c) (map f t)
  end.

Fixpoint filter (p : ascii -> bool) (s : string) : string :=
  match s with
  | EmptyString => EmptyString
  | String c t => if p c then String c (filter p t) else filter p t
  end.

Fixpoint all (p : ascii -> bool) (s : string) : bool :=
  match s with
  | EmptyString => true
  | String c t => p c && all p t
  end.

Definition is_empty (s : string) : bool :=
  match s with EmptyString => true | String _ _ => false end.

(** the first code unit satisfies [p] *)
Definition starts (p : ascii -> bool) (s : string) : bool :=
  match s with EmptyString => false | String c _ => p c end.

(** the last code unit satisfies [p] *)
Fixpoint ends (p : ascii -> bool) (s : string) : bool :=
  match s with
  | EmptyString => false
  | String c EmptyString => p c
  | String _ t => ends p t
  end.

(** remove the longest prefix of code units satisfying [p] *)
Fixpoint dropWhile (p : ascii -> bool) (s : string) : string :=
  match s with
  | EmptyString => EmptyString
  | String c t => if p c then dropWhile p t else s
  end.

(** the longest prefix of code units satisfying [p] *)
Fixpoint takeWhile (p : ascii -> bool) (s : string) : string :=
  match s with
  | EmptyString => EmptyString
  | String c t => if p c then String c (takeWhile p t) else EmptyString
  end.

(** remove the longest suffix of code units satisfying [p] *)
Fixpoint dropWhileEnd (p : ascii -> bool) (s : string) : string :=
  match s with
  | EmptyString => EmptyString
  | String c t =>
      let t' := dropWhileEnd p t in
      if p c && is_empty t' then EmptyString else String c t'
  end.

(** [s.trim()] *)
Definition trim (s : string) : string :=
  dropWhileEnd is_white (dropWhile is_white s).

(** [s.toLowerCase()] *)
Definition toLowerCase (s : string) : string := map lower_char s.

(** [s.replaceAll(" ", "-")] *)
Definition spaces_to_dashes (s : string) : string :=
  map (fun c => if Ascii.eqb c " " then "-"%char else c) s.

(** [s.replace(/c+/g, c)] for a single code unit [c]: every maximal run of
    [c] becomes one [c]. *)
Fixpoint collapse (c : ascii) (s : string) : string :=
  match s with
  | EmptyString => EmptyString
  | String a t =>
      if Ascii.eqb a c && starts (Ascii.eqb c) t
      then collapse c t
      else String a (collapse c t)
  end.

(** [s.replace(/^[-_]+|[-_]+$/g, "")]: the leading run of separators and
    the trailing run of separators are removed. *)
Definition trim_separators (s : string) : string :=
  dropWhileEnd is_sep (dropWhile is_sep s).

(** no two adjacent code units are both equal to [c] *)
Fixpoint no_double (c : ascii) (s : string) : bool :=
  match s with
  | EmptyString => true
  | String a t => negb (Ascii.eqb a c && starts (Ascii.eqb c) t) && no_double c t
  end.

(** no two adjacent code units both satisfy [p] *)
Fixpoint no_adjacent (p : ascii -> bool) (s : string) : bool :=
  match s with
  | EmptyString => true
  | String a t => negb (p a && starts p t) && no_adjacent p t
  end.

End JsString.

Import JsString.

(** ** Results and errors

    The functions of [main.js] return [{ ok: true, ... }] or
    [{ ok: false, error: <message> }]; handlers that show a toast and return
    are given the message they show.  [Error] has one constructor per
    message, named after the error of the specification it stands for. *)

Inductive Error : Type :=
| NotSignedIn              (* "Not signed in." *)
| UrlRequired              (* "Please enter a URL." *)
| InvalidUrl               (* "That doesn't look like a valid URL." *)
| UnsupportedScheme        (* "Only http/https URLs are supported." *)
| InvalidExpiry            (* "Invalid expiration date." *)
| EmptySlug                (* "Slug is required." *)
| SlugLengthInvalid        (* "Slug must be 3-32 characters." *)
| SlugCharsetInvalid       (* "Use letters, numbers, dashes, underscores." *)
| SlugReserved             (* "That slug is reserved." *)
| SlugTaken                (* "That alias is already taken." / "That slug is already taken." *)
| SlugAllocationExhausted  (* "Failed to generate a unique slug. Try again." *)
| LinkNotFound             (* "Link not found." / the handler returns silently *)
| LinkExpired              (* "This link has expired." *)
| LinkDisabled.            (* "This link is disabled." *)

Inductive Result (A : Type) : Type :=
| Ok (a : A)
| Err (e : Error).
Arguments Ok {A} a.
Arguments Err {A} e.

(** ** Validator *)

(** [const RESERVED_SLUGS = new Set([...])] *)
Definition RESERVED_SLUGS : list string :=
  ["login"; "dashboard"; "shorten"; "api"; "admin"; "settings"].

(** [RESERVED_SLUGS.has(slug)] *)
Definition reserved (slug : string) : bool :=
  existsb (String.eqb slug) RESERVED_SLUGS.

(** [/^[a-zA-Z][a-zA-Z0-9+.-]*:\/\//.test(url)] *)
Definition looksLikeScheme (url : string) : bool :=
  match url with
  | EmptyString => false
  | String c t => is_alpha c && String.prefix "://" (dropWhile is_scheme_char t)
  end.

(** [sanitizeSlug(input)] *)
Definition sanitizeSlug (input : string) : string :=
  let raw := toLowerCase (trim input) in
  if is_empty raw then ""
  else
    let s := filter is_slug_char (spaces_to_dashes raw) in
    let s := collapse "_" (collapse "-" s) in
    trim_separators s.

(** [/^[a-z0-9][a-z0-9\-_]*[a-z0-9]$/.test(slug)]: the tail after the first
    code unit is a run of slug characters that ends in [[a-z0-9]]. *)
Fixpoint slug_regex_tail (s : string) : bool :=
  match s with
  | EmptyString => false
  | String c EmptyString => is_lower_alnum c
  | String c t => is_slug_char c && slug_regex_tail t
  end.

Definition slug_regex (slug : string) : bool :=
  match slug with
  | EmptyString => false
  | String c t => is_lower_alnum c && slug_regex_tail t
  end.

(** [isSlugValid(slug)] *)
Definition isSlugValid (slug : string) : Result unit :=
  if is_empty slug then Err EmptySlug
  else if (String.length slug <? 3)%nat || (32 <? String.length slug)%nat
  then Err SlugLengthInvalid
  else if negb (slug_regex slug) && (1 <? String.length slug)%nat
  then Err SlugCharsetInvalid
  else if reserved slug then Err SlugReserved
  else Ok tt.

(** [isSlugValid] with the conjunct [slug.length > 1] removed: the regular
    expression is applied to every slug that passed the length check. *)
Definition isSlugValid_regex_always (slug : string) : Result unit :=
  if is_empty slug then Err EmptySlug
  else if (String.length slug <? 3)%nat || (32 <? String.length slug)%nat
  then Err SlugLengthInvalid
  else if negb (slug_regex slug)
  then Err SlugCharsetInvalid
  else if reserved slug then Err SlugReserved
  else Ok tt.

(** ** Slug allocator: random candidates *)

(** [const alphabet = "abcdefghijklmnopqrstuvwxyz0123456789"] *)
Definition alphabet : string := "abcdefghijklmnopqrstuvwxyz0123456789".

(** [Math.floor(Math.random() * alphabet.length)]: [Math.random()] is in
    [0, 1), so the index is in [0, 36); the oracle's draw is reduced into that
    range. *)
Definition random_index (draw : nat) : nat :=
  (draw mod String.length alphabet)%nat.

(** the oracle after [n] draws were consumed *)
Definition skip (n : nat) (rnd : nat -> nat) : nat -> nat :=
  fun i => rnd (n + i)%nat.

(** [randomSlug(len)]: [out += alphabet[...]], [len] times. *)
Fixpoint randomSlug (len : nat) (rnd : nat -> nat) : string :=
  match len with
  | O => ""
  | S n =>
      match String.get (random_index (rnd O)) alphabet with
      | Some c => String c (randomSlug n (skip 1 rnd))
      | None => "undefined" +:+ randomSlug n (skip 1 rnd)
      end
  end.

(** ** Link store *)

(** A date string as [new Date(s).getTime()] reads it: the field is falsy
    ([null], [""]), or it is not a date ([NaN]), or it is an instant in
    milliseconds. *)
Inductive DateValue : Type :=
| NoDate
| InvalidDate
| Millis (t : Z).

Record Link : Type := mkLink {
  link_id : string;
  userId : string;
  originalUrl : string;
  slug : string;
  createdAt : Z;
  expiresAt : DateValue;
  enabled : bool;
  clicks : Z
}.

(** The patch object of [updateLink(id, patch)]: the fields it carries. *)
Record Patch : Type := mkPatch {
  p_originalUrl : option string;
  p_slug : option string;
  p_expiresAt : option DateValue;
  p_enabled : option bool;
  p_clicks : option Z
}.

(** [{ ...link, ...patch }] *)
Definition merge (l : Link) (p : Patch) : Link :=
  {| link_id := link_id l;
     userId := userId l;
     originalUrl := default (originalUrl l) (p_originalUrl p);
     slug := default (slug l) (p_slug p);
     createdAt := createdAt l;
     expiresAt := default (expiresAt l) (p_expiresAt p);
     enabled := default (enabled l) (p_enabled p);
     clicks := default (clicks l) (p_clicks p) |}.

(** [l.enabled = false] *)
Definition disable (l : Link) : Link :=
  merge l (mkPatch None None None (Some false) None).

(** [state] (the fields the core reads) and the snapshot in [localStorage]. *)
Record State : Type := mkState {
  session : option string;   (* state.session?.userId *)
  links : list Link;         (* state.links *)
  stored : list Link         (* localStorage[LS_KEYS.links] *)
}.

Definition set_links (ls : list Link) (st : State) : State :=
  {| session := session st; links := ls; stored := stored st |}.

(** a fresh browser profile: nothing stored, nobody signed in *)
Definition initial : State := mkState None [] [].

(** [persistLinks()] *)
Definition persistLinks (st : State) : State :=
  {| session := session st; links := links st; stored := links st |}.

(** [getCurrentUserId()]: [state.session?.userId || null] *)
Definition getCurrentUserId (st : State) : option string :=
  match session st with
  | Some u => if is_empty u then None else Some u
  | None => None
  end.

(** ** Lifecycle engine *)

Inductive Status : Type := Active | Expired | Disabled.

(** [isExpired(link)], with [Date.now() = now] *)
Definition isExpired (now : Z) (l : Link) : bool :=
  match expiresAt l with
  | NoDate => false
  | InvalidDate => false
  | Millis t => t <? now
  end.

(** [computeStatus(link)] *)
Definition computeStatus (now : Z) (l : Link) : Status :=
  if isExpired now l then Expired
  else if negb (enabled l) then Disabled
  else Active.

(** [slugExists(slug, excludeLinkId = null)] *)
Definition slugExists (slug0 : string) (excludeLinkId : option string)
    (st : State) : bool :=
  let s := toLowerCase slug0 in
  existsb
    (fun l => bool_decide (slug l = s)
              && bool_decide (Some (link_id l) <> excludeLinkId))
    (links st).

(** The loop of [ensureAutoDisableExpired]: the links after it, and
    [changed]. *)
Fixpoint autoDisable (now : Z) (ls : list Link) : list Link * bool :=
  match ls with
  | [] => ([], false)
  | l :: t =>
      let (t', changed) := autoDisable now t in
      if enabled l && isExpired now l
      then (disable l :: t', true)
      else (l :: t', changed)
  end.

(** [ensureAutoDisableExpired()] *)
Definition ensureAutoDisableExpired (now : Z) (st : State) : State :=
  let (ls, changed) := autoDisable now (links st) in
  let st' := set_links ls st in
  if changed then persistLinks st' else st'.

(** [renderLinks()]: the sweep; the table it draws is not modelled. *)
Definition renderLinks (now : Z) (st : State) : State :=
  ensureAutoDisableExpired now st.

(** [loadData()] *)
Definition loadData (now : Z) (st : State) : State :=
  ensureAutoDisableExpired now (set_links (stored st) st).

(** [findLinkById(id)] *)
Definition findLinkById (id : string) (st : State) : option Link :=
  find (fun l => bool_decide (link_id l = id)) (links st).

(** [updateLink(id, patch)] *)
Definition updateLink (id : string) (patch : Patch) (st : State)
  : State * bool :=
  match list_find (fun l => link_id l = id) (links st) with
  | None => (st, false)
  | Some (idx, l) =>
      (persistLinks (set_links (<[idx := merge l patch]> (links st)) st), true)
  end.

(** [deleteLink(id)] *)
Definition deleteLink (id : string) (st : State) : State * bool :=
  let before := length (links st) in
  let st' :=
    set_links
      (List.filter (fun l => bool_decide (link_id l <> id)) (links st)) st in
  if (length (links st') =? before)%nat then (st', false)
  else (persistLinks st', true).

(** The largest count: [2^53], the first integer whose successor is not a
    [Number]. *)
Definition MAX_COUNT : Z := 9007199254740992.

(** [Number(n) + 1] for a count [n] from 0 to [2^53], the values [clicks]
    takes ([clicks_in_range]): the sum is exact below [2^53], and
    [2^53 + 1] rounds to the even neighbour, [2^53] itself. *)
Definition Number_succ (n : Z) : Z :=
  if n <? MAX_COUNT then n + 1 else n.

(** [recordClickAndMaybeOpen(link)]: the destination handed to
    [window.open], or the message of the toast.  The clock is read twice on
    the path that counts: [Date.now() = now] in [computeStatus(link)], and
    [Date.now() = later] in the sweep of [renderLinks()]. *)
Definition recordClickAndMaybeOpen (now later : Z) (link : Link) (st : State)
  : State * Result string :=
  match computeStatus now link with
  | Expired => (st, Err LinkExpired)
  | Disabled => (st, Err LinkDisabled)
  | Active =>
      let clicks' := Number_succ (clicks link) in
      let st1 := fst (updateLink (link_id link)
                        (mkPatch None None None None (Some clicks')) st) in
      let st2 := renderLinks later st1 in
      (st2, Ok (originalUrl link))
  end.

(** The click handlers of a short link ([.js-shortlink], [#resultShortUrl]):
    [findLinkById], then [recordClickAndMaybeOpen]. *)
Definition accessLink (now later : Z) (id : string) (st : State)
  : State * Result string :=
  match findLinkById id st with
  | None => (st, Err LinkNotFound)
  | Some link => recordClickAndMaybeOpen now later link st
  end.

(** The [.js-toggle] handler: [Date.now() = now] in [isExpired(link)],
    [Date.now() = later] in the sweep of [renderLinks()]. *)
Definition toggleLink (now later : Z) (id : string) (st : State)
  : State * Result unit :=
  match findLinkById id st with
  | None => (st, Err LinkNotFound)
  | Some link =>
      if isExpired now link then (st, Err LinkExpired)
      else
        let st1 := fst (updateLink id
                          (mkPatch None None None (Some (negb (enabled link))) None)
                          st) in
        (renderLinks later st1, Ok tt)
  end.

(** The [.js-delete] handler, once confirmed. *)
Definition removeLink (now : Z) (id : string) (st : State)
  : State * Result unit :=
  match findLinkById id st with
  | None => (st, Err LinkNotFound)
  | Some _ => (renderLinks now (fst (deleteLink id st)), Ok tt)
  end.

(** The [for (let i = 0; i < 30; i++)] loop of [createLink], with [attempts]
    iterations left: the first candidate that is neither taken nor reserved,
    or [""] when the loop ends without one. *)
Fixpoint generateSlug (attempts : nat) (rnd : nat -> nat) (st : State)
  : string :=
  match attempts with
  | O => ""
  | S n =>
      let candidate := randomSlug 6 rnd in
      if negb (slugExists candidate None st) && negb (reserved candidate)
      then candidate
      else generateSlug n (skip 6 rnd) st
  end.

(** The [i]-th candidate the loop draws. *)
Definition candidate (rnd : nat -> nat) (i : nat) : string :=
  randomSlug 6 (skip (6 * i) rnd).

(** [expiresAtLocal] of a form, as [createLink] and [saveEditFromForm] read
    it: [null] when blank, an error when [getTime()] is [NaN], else the
    instant ([d.toISOString()] reads back as the same instant). *)
Definition readExpiry (expiresAtLocal : DateValue) : Result DateValue :=
  match expiresAtLocal with
  | NoDate => Ok NoDate
  | InvalidDate => Err InvalidExpiry
  | Millis t => Ok (Millis t)
  end.

(** What [new URL(s)] returns: the fields [normalizeUrl] reads. *)
Record Url : Type := mkUrl {
  protocol : string;   (* u.protocol *)
  href : string        (* u.toString() *)
}.

Section WithURL.

(** [new URL(s)]; [None] when it throws. *)
Variable URL : string -> option Url.

(** What is known of the id that [uid("lnk")] returns in a state. *)
Variable uid_ok : State -> string -> Prop.

(** [normalizeUrl(input)] *)
Definition normalizeUrl (input : string) : Result string :=
  let raw := trim input in
  if is_empty raw then Err UrlRequired
  else
    let withScheme := if looksLikeScheme raw then raw else "https://" +:+ raw in
    match URL withScheme with
    | None => Err InvalidUrl
    | Some u =>
        if negb (existsb (String.eqb (protocol u)) ["http:"; "https:"])
        then Err UnsupportedScheme
        else Ok (href u)
    end.

(** [createLink({ originalUrlRaw, customSlugRaw, enabled, expiresAtLocal })],
    with [uid("lnk") = newId] and [Date.now() = now]. *)
Definition createLink (now : Z) (newId : string) (rnd : nat -> nat)
    (originalUrlRaw customSlugRaw : string) (enabled0 : bool)
    (expiresAtLocal : DateValue) (st : State) : State * Result Link :=
  match getCurrentUserId st with
  | None => (st, Err NotSignedIn)
  | Some user =>
  match normalizeUrl originalUrlRaw with
  | Err e => (st, Err e)
  | Ok url =>
  match readExpiry expiresAtLocal with
  | Err e => (st, Err e)
  | Ok expires =>
  let slug0 := sanitizeSlug customSlugRaw in
  let chosen : Result string :=
    if negb (is_empty slug0) then
      match isSlugValid slug0 with
      | Err e => Err e
      | Ok _ => if slugExists slug0 None st then Err SlugTaken else Ok slug0
      end
    else
      let slug1 := generateSlug 30 rnd st in
      if is_empty slug1 then Err SlugAllocationExhausted else Ok slug1 in
  match chosen with
  | Err e => (st, Err e)
  | Ok slug1 =>
      let link :=
        {| link_id := newId; userId := user; originalUrl := url;
           slug := slug1; createdAt := now; expiresAt := expires;
           enabled := enabled0; clicks := 0 |} in
      (persistLinks (set_links (link :: links st) st), Ok link)
  end end end end.

(** The submit handler of [#shortenForm]: [createLink], and [renderLinks]
    when it succeeded; the clock reads [now] for [createdAt] and [later] in
    the sweep. *)
Definition shortenSubmit (now later : Z) (newId : string) (rnd : nat -> nat)
    (originalUrlRaw customSlugRaw : string) (enabled0 : bool)
    (expiresAtLocal : DateValue) (st : State) : State * Result Link :=
  match createLink now newId rnd originalUrlRaw customSlugRaw enabled0
          expiresAtLocal st with
  | (st', Ok link) => (renderLinks later st', Ok link)
  | (st', Err e) => (st', Err e)
  end.

(** [saveEditFromForm()], with the values of the edit form as arguments. *)
Definition saveEditFromForm (now : Z) (id : string)
    (editLongUrl editSlug : string) (editExpiresAt : DateValue)
    (editEnabled : bool) (st : State) : State * Result unit :=
  match findLinkById id st with
  | None => (st, Err LinkNotFound)
  | Some _ =>
  match normalizeUrl editLongUrl with
  | Err e => (st, Err e)
  | Ok url =>
  let slugSan := sanitizeSlug editSlug in
  match isSlugValid slugSan with
  | Err e => (st, Err e)
  | Ok _ =>
  if slugExists slugSan (Some id) st then (st, Err SlugTaken)
  else
  match readExpiry editExpiresAt with
  | Err e => (st, Err e)
  | Ok expires =>
      let st1 := fst (updateLink id
                        (mkPatch (Some url) (Some slugSan) (Some expires)
                           (Some editEnabled) None) st) in
      let st2 := ensureAutoDisableExpired now st1 in
      (renderLinks now st2, Ok tt)
  end end end end.

(** One event of the core: the state before, the state after. *)
Inductive step : State -> State -> Prop :=
| step_session st now user :
    step st (renderLinks now (mkState user (links st) (stored st)))
| step_create st now later newId rnd url slug0 en ex :
    uid_ok st newId ->
    step st (fst (shortenSubmit now later newId rnd url slug0 en ex st))
| step_edit st now id url slug0 ex en :
    step st (fst (saveEditFromForm now id url slug0 ex en st))
| step_delete st now id :
    step st (fst (removeLink now id st))
| step_access st now later id :
    step st (fst (accessLink now later id st))
| step_toggle st now later id :
    step st (fst (toggleLink now later id st))
| step_render st now :
    step st (renderLinks now st)
| step_load st now :
    step st (loadData now st).

(** The states the core reaches from a fresh profile. *)
Inductive reachable : State -> Prop :=
| reachable_initial : reachable initial
| reachable_step st st' : reachable st -> step st st' -> reachable st'.

End WithURL.

(** ** Predicates of the statements *)

(** What the loop of [ensureAutoDisableExpired] does to one link. *)
Definition autoDisable1 (now : Z) (l : Link) : Link :=
  if enabled l && isExpired now l then disable l else l.

(** [l] with [clicks] replaced. *)
Definition with_clicks (n : Z) (l : Link) : Link :=
  {| link_id := link_id l; userId := userId l; originalUrl := originalUrl l;
     slug := slug l; createdAt := createdAt l; expiresAt := expiresAt l;
     enabled := enabled l; clicks := n |}.

(** [l] with [enabled] replaced. *)
Definition with_enabled (b : bool) (l : Link) : Link :=
  {| link_id := link_id l; userId := userId l; originalUrl := originalUrl l;
     slug := slug l; createdAt := createdAt l; expiresAt := expiresAt l;
     enabled := b; clicks := clicks l |}.


(** What [sanitizeSlug] guarantees of its result: only [[a-z0-9_-]], no
    [--] and no [__], no separator first or last. *)
Definition sanitized (s : string) : bool :=
  all is_slug_char s
  && no_double "-" s && no_double "_" s
  && negb (starts is_sep s) && negb (ends is_sep s).

(** The test of the allocation loop on a candidate: not taken, not
    reserved. *)
Definition free_slug (st : State) (s : string) : bool :=
  negb (slugExists s None st) && negb (reserved s).

(** Some link of the collection has the slug [s]. *)
Definition taken (st : State) (s : string) : Prop :=
  exists l, l ∈ links st /\ slug l = s.

(** The URI scheme an input carries (RFC 3986): a letter, then letters,
    digits, [+], [-] or [.], up to a colon. *)
Definition uriScheme (s : string) : option string :=
  match s with
  | EmptyString => None
  | String c t =>
      if is_alpha c && starts (Ascii.eqb ":") (dropWhile is_scheme_char t)
      then Some (String c (takeWhile is_scheme_char t))
      else None
  end.

(** the scheme is [http] or [https], in any case *)
Definition http_scheme (sch : string) : bool :=
  existsb (String.eqb (toLowerCase sch)) ["http"; "https"].

(** What the URL Standard fixes of [new URL(s)] for a string that starts
    with a scheme and a colon: [protocol] is that scheme in lower case,
    followed by the colon. *)
Definition URL_scheme_law (URL : string -> option Url) : Prop :=
  forall s u sch,
    URL s = Some u -> uriScheme s = Some sch ->
    protocol u = toLowerCase sch +:+ ":".

(** A URL constructor for the examples: it returns what [new URL(s)]
    returns on the strings listed, and rejects every other string. *)
Definition URL_table (s : string) : option Url :=
  if String.eqb s "https://example.com/page"
  then Some (mkUrl "https:" "https://example.com/page")
  else if String.eqb s "https://mailto:a@b.c"
  then Some (mkUrl "https:" "https://mailto:a@b.c/")
  else if String.eqb s "ftp://example.com/file"
  then Some (mkUrl "ftp:" "ftp://example.com/file")
  else None.

(** Comparison of two slugs regardless of case. *)
Definition same_slug (a b : string) : Prop := toLowerCase a = toLowerCase b.

(** Any two links at different places of the collection have slugs that
    differ, compared regardless of case. *)
Definition slugs_unique (st : State) : Prop :=
  forall i j li lj,
    links st !! i = Some li -> links st !! j = Some lj -> i <> j ->
    ~ same_slug (slug li) (slug lj).

(** [uid] returns an id that no link of the collection has. *)
Definition fresh_uid (st : State) (id : string) : Prop :=
  Forall (fun l => link_id l <> id) (links st).

(** The id and the slug of a link. *)
Definition key (l : Link) : string * string := (link_id l, slug l).

(** Entries with different ids have different slugs. *)
Definition distinct_slugs (ks : list (string * string)) : Prop :=
  forall k1 k2, k1 ∈ ks -> k2 ∈ ks -> k1.1 <> k2.1 -> k1.2 <> k2.2.

(** every slug is over [[a-z0-9_-]] *)
Definition slug_chars (ks : list (string * string)) : Prop :=
  Forall (fun k => all is_slug_char k.2 = true) ks.

(** The invariant of the store: the snapshot is the collection in memory,
    every slug is over [[a-z0-9_-]], and links with different ids have
    different slugs. *)
Definition store_ok (st : State) : Prop :=
  stored st = links st
  /\ slug_chars (key <$> links st)
  /\ distinct_slugs (key <$> links st).

(** no two links of the collection have the same id *)
Definition ids_unique (st : State) : Prop :=
  NoDup (key <$> links st).*1.

(** An event keeps both. *)
Definition keeps (st st' : State) : Prop :=
  (store_ok st -> store_ok st') /\ (ids_unique st -> ids_unique st').

(** ** States of the examples *)

(** the draws 0, 1, 2, ...: the first candidate is ["abcdef"] *)
Definition counting : nat -> nat := fun i => i.

(** the draws 0, 0, 0, ...: every candidate is ["aaaaaa"] *)
Definition stuck : nat -> nat := fun _ => O.

(** a user signs in on a fresh profile at instant 10 *)
Definition signed_in : State :=
  renderLinks 10 (mkState (Some "usr_1") (links initial) (stored initial)).

(** ... creates [/promo], which expires at instant 100, at instant 20 *)
Definition one_link : State :=
  fst (shortenSubmit URL_table 20 20 "lnk_1" counting
         "example.com/page" " Promo " true (Millis 100) signed_in).

(** ... and a link without a requested slug at instant 30 *)
Definition two_links : State :=
  fst (shortenSubmit URL_table 30 30 "lnk_2" counting
         "example.com/page" "" true NoDate one_link).

(** a profile whose snapshot holds a link with an [expiresAt] that is not a
    date *)
Definition odd_link : Link :=
  mkLink "lnk_9" "usr_1" "https://example.com/page" "odd" 5 InvalidDate true 7.

Definition odd_profile : State := mkState (Some "usr_1") [odd_link] [odd_link].

(** a profile whose snapshot holds a link that has been counted [2^53] times *)
Definition worn_link : Link :=
  mkLink "lnk_8" "usr_1" "https://example.com/page" "worn" 5 NoDate true
    MAX_COUNT.

Definition worn_profile : State :=
  mkState (Some "usr_1") [worn_link] [worn_link].

(** ** Escaping, short URLs and the theme *)

(** [s.replaceAll(c, rep)] for a pattern of one code unit [c]. *)
Fixpoint replaceAll (c : ascii) (rep : string) (s : string) : string :=
  match s with
  | EmptyString => EmptyString
  | String a t =>
      if Ascii.eqb a c then rep +:+ replaceAll c rep t
      else String a (replaceAll c rep t)
  end.

(** the double quote, U+0022 *)
Definition dquote : ascii := "034"%char.

(** [escapeHtml(str)] *)
Definition escapeHtml (str : string) : string :=
  replaceAll "'" "&#039;"
    (replaceAll dquote "&quot;"
       (replaceAll ">" "&gt;"
          (replaceAll "<" "&lt;"
             (replaceAll "&" "&amp;" str)))).

(** What [escapeHtml] writes for one code unit. *)
Definition escape_char (c : ascii) : string :=
  if Ascii.eqb c "&" then "&amp;"
  else if Ascii.eqb c "<" then "&lt;"
  else if Ascii.eqb c ">" then "&gt;"
  else if Ascii.eqb c dquote then "&quot;"
  else if Ascii.eqb c "'" then "&#039;"
  else String c "".

(** the code units that end or open markup in an HTML template *)
Definition is_markup (c : ascii) : bool :=
  Ascii.eqb c "<" || Ascii.eqb c ">" || Ascii.eqb c dquote || Ascii.eqb c "'".

Definition is_html_special (c : ascii) : bool :=
  Ascii.eqb c "&" || is_markup c.

(** Every [&] of [s] opens one of the five entities [escapeHtml] writes. *)
Fixpoint entities_only (s : string) : bool :=
  match s with
  | EmptyString => true
  | String c t =>
      (negb (Ascii.eqb c "&")
       || String.prefix "amp;" t || String.prefix "lt;" t
       || String.prefix "gt;" t || String.prefix "quot;" t
       || String.prefix "#039;" t)
      && entities_only t
  end.

(** Reading an escaped text back: each of the five entities becomes its
    code unit; [skip] code units of the entity just read are passed over. *)
Fixpoint unescapeHtml (skip : nat) (s : string) : string :=
  match s with
  | EmptyString => EmptyString
  | String c t =>
      match skip with
      | S k => unescapeHtml k t
      | O =>
          if negb (Ascii.eqb c "&") then String c (unescapeHtml 0 t)
          else if String.prefix "amp;" t then String "&" (unescapeHtml 4 t)
          else if String.prefix "lt;" t then String "<" (unescapeHtml 3 t)
          else if String.prefix "gt;" t then String ">" (unescapeHtml 3 t)
          else if String.prefix "quot;" t then String dquote (unescapeHtml 5 t)
          else if String.prefix "#039;" t then String "'" (unescapeHtml 5 t)
          else String c (unescapeHtml 0 t)
      end
  end.

(** [const BASE_SHORT_DOMAIN = "https://sho.rt/"] *)
Definition BASE_SHORT_DOMAIN : string := "https://sho.rt/".

(** [getShortUrl(slug)] *)
Definition getShortUrl (slug0 : string) : string := BASE_SHORT_DOMAIN +:+ slug0.

(** The theme: whether [document.documentElement] has the class [dark], and
    [localStorage] under [LS_KEYS.theme] ([None] when the key is absent). *)
Record Theme : Type := mkTheme {
  dark : bool;
  stored_theme : option string
}.

(** [applyTheme(mode)], with [prefersDark] the answer of
    [window.matchMedia("(prefers-color-scheme: dark)")]. *)
Definition applyTheme (prefersDark : bool) (mode : string) (th : Theme) : Theme :=
  let m := if is_empty mode then "system" else mode in
  let d :=
    if String.eqb m "dark" then true
    else if String.eqb m "light" then false
    else prefersDark in
  mkTheme d (Some m).

(** [loadTheme()] *)
Definition loadTheme (prefersDark : bool) (th : Theme) : Theme :=
  applyTheme prefersDark (default "system" (stored_theme th)) th.

(** [toggleTheme()] *)
Definition toggleTheme (prefersDark : bool) (th : Theme) : Theme :=
  applyTheme prefersDark (if dark th then "light" else "dark") th.

(** ** The dashboard *)

(** the strings [computeStatus] returns *)
Definition status_name (s : Status) : string :=
  match s with
  | Active => "active"
  | Expired => "expired"
  | Disabled => "disabled"
  end.

(** [hay.includes(q)] *)
Fixpoint includes (hay q : string) : bool :=
  String.prefix q hay
  || match hay with
     | EmptyString => false
     | String _ t => includes t q
     end.

(** [getUserLinks()] *)
Definition getUserLinks (st : State) : list Link :=
  match getCurrentUserId st with
  | None => []
  | Some user => List.filter (fun l => bool_decide (userId l = user)) (links st)
  end.

(** [matchesFilter(link)], with [state.filter = { query, status }]. *)
Definition matchesFilter (query status : string) (now : Z) (link : Link) : bool :=
  let q := toLowerCase (trim query) in
  if negb (is_empty q)
     && negb (includes
                (toLowerCase (slug link +:+ " " +:+ originalUrl link)) q)
  then false
  else if String.eqb status "all" then true
  else String.eqb (status_name (computeStatus now link)) status.

(** The links of the rows that [renderLinks()] draws: after the sweep, which
    reads [Date.now() = now], the links of the signed-in user that match the
    filter, whose [computeStatus] reads [Date.now() = later]. *)
Definition renderedLinks (query status : string) (now later : Z) (st : State)
  : list Link :=
  List.filter (matchesFilter query status later)
    (getUserLinks (ensureAutoDisableExpired now st)).

(** ** Accounts *)

Record User : Type := mkUser {
  user_id : string;
  email : string;
  name : string;
  user_createdAt : Z
}.

(** [state.users], [state.session] and their copies in [localStorage]. *)
Record Accounts : Type := mkAccounts {
  users : list User;
  account_session : option (string * string);   (* { userId, email } *)
  stored_users : list User;
  stored_session : option (string * string)
}.

(** [[^\s@]] *)
Definition is_email_char (c : ascii) : bool :=
  negb (is_white c) && negb (Ascii.eqb c "@").

(** a dot of [t] that is not its last code unit *)
Fixpoint dot_before_last (t : string) : bool :=
  match t with
  | String c (String _ _ as t') => Ascii.eqb c "." || dot_before_last t'
  | _ => false
  end.

(** [/^[^\s@]+@[^\s@]+\.[^\s@]+$/.test(s)]: the longest run of [[^\s@]] is
    not empty and is followed by [@]; what follows has only [[^\s@]] and a
    dot that is neither its first nor its last code unit. *)
Definition email_regex (s : string) : bool :=
  match dropWhile is_email_char s with
  | String c rest =>
      Ascii.eqb c "@"
      && negb (is_empty (takeWhile is_email_char s))
      && all is_email_char rest
      && match rest with
         | EmptyString => false
         | String _ t => dot_before_last t
         end
  | EmptyString => false
  end.

(** [signIn(email, nameOptional)], with [uid("usr") = newId] and
    [Date.now() = now]; [None] is the answer
    [{ ok: false, error: "Please enter a valid email address." }]. *)
Definition signIn (now : Z) (newId : string) (email0 nameOptional : string)
    (acc : Accounts) : Accounts * option User :=
  let normalized := toLowerCase (trim email0) in
  if is_empty normalized || negb (email_regex normalized) then (acc, None)
  else
    match find (fun u => bool_decide (email u = normalized)) (users acc) with
    | Some user =>
        (mkAccounts (users acc) (Some (user_id user, email user))
           (stored_users acc) (Some (user_id user, email user)),
         Some user)
    | None =>
        let user := mkUser newId normalized (trim nameOptional) now in
        (mkAccounts (users acc ++ [user]) (Some (user_id user, email user))
           (users acc ++ [user]) (Some (user_id user, email user)),
         Some user)
    end.

(** [signOut()] *)
Definition signOut (acc : Accounts) : Accounts :=
  mkAccounts (users acc) None (stored_users acc) None.

(** ** The slug field of the forms *)

(** The text [updateSlugAvailabilityUI] puts under the slug field. *)
Inductive SlugStatus : Type :=
| NoStatus                 (* "" *)
| Refused (e : Error)      (* the message of [isSlugValid] *)
| Unavailable              (* "Unavailable" *)
| Available.               (* "Available" *)

(** [updateSlugAvailabilityUI(slugInput, $statusEl, excludeLinkId)]: the
    object [{ ok, slug }] it returns and the text it shows. *)
Definition updateSlugAvailabilityUI (slugInput : string)
    (excludeLinkId : option string) (st : State)
  : bool * string * SlugStatus :=
  let slug0 := sanitizeSlug slugInput in
  if is_empty slug0 then (true, "", NoStatus)
  else
    match isSlugValid slug0 with
    | Err e => (false, slug0, Refused e)
    | Ok _ =>
        if slugExists slug0 excludeLinkId st then (false, slug0, Unavailable)
        else (true, slug0, Available)
    end.

(** ** What the statements say of a stored link *)

(** the destination is what [new URL] returned for an http or https URL *)
Definition http_href (URL : string -> option Url) (dest : string) : Prop :=
  exists s u, URL s = Some u /\ href u = dest
              /\ (protocol u = "http:" \/ protocol u = "https:").

(** A link as the core writes it: a slug that [isSlugValid] accepts, a count
    of clicks that is not negative, an expiry that is absent or a date, and
    a destination with the scheme http or https. *)
Definition link_ok (URL : string -> option Url) (l : Link) : Prop :=
  isSlugValid (slug l) = Ok tt
  /\ 0 <= clicks l
  /\ expiresAt l <> InvalidDate
  /\ http_href URL (originalUrl l).

(** The id and the count of clicks of a link. *)
Definition counter (l : Link) : string * Z := (link_id l, clicks l).

(** A count from 0 to [2^53]. *)
Definition count_ok (l : Link) : Prop := 0 <= clicks l <= MAX_COUNT.

(** * Properties *)

(** ** Code units *)

Ltac each_code_unit c :=
  destruct c as [[|] [|] [|] [|] [|] [|] [|] [|]];
  vm_compute; try reflexivity; try discriminate; auto.

Lemma slug_char_lower c : is_slug_char c = true -> lower_char c = c.
Proof. each_code_unit c. Qed.

Lemma slug_char_not_white c : is_slug_char c = true -> is_white c = false.
Proof. each_code_unit c. Qed.

Lemma slug_char_not_space c :
  is_slug_char c = true -> (if Ascii.eqb c " " then "-"%char else c) = c.
Proof. each_code_unit c. Qed.

Lemma lower_alnum_slug_char c : is_lower_alnum c = true -> is_slug_char c = true.
Proof. unfold is_slug_char. intros ->. reflexivity. Qed.

(** ** String combinators *)

Section Combinators.

Variables p q : ascii -> bool.

Lemma all_filter s : all p (filter p s) = true.
Proof.
  induction s as [|c t IH]; simpl; [reflexivity|].
  destruct (p c) eqn:E; simpl; [rewrite E|]; exact IH.
Qed.

Lemma all_dropWhile s : all p s = true -> all p (dropWhile q s) = true.
Proof.
  induction s as [|c t IH]; simpl; [reflexivity|].
  intros [Hc Ht]%andb_true_iff.
  destruct (q c); [auto|]. simpl. rewrite Hc. exact Ht.
Qed.

Lemma all_dropWhileEnd s : all p s = true -> all p (dropWhileEnd q s) = true.
Proof.
  induction s as [|c t IH]; simpl; [reflexivity|].
  intros [Hc Ht]%andb_true_iff.
  destruct (q c && is_empty (dropWhileEnd q t)); simpl; [reflexivity|].
  rewrite Hc. auto.
Qed.

Lemma all_collapse a s : all p s = true -> all p (collapse a s) = true.
Proof.
  induction s as [|c t IH]; simpl; [reflexivity|].
  intros [Hc Ht]%andb_true_iff.
  destruct (Ascii.eqb c a && starts (Ascii.eqb a) t); simpl; [auto|].
  rewrite Hc. auto.
Qed.

Lemma all_starts_false s :
  (forall c, p c = true -> q c = false) -> all p s = true -> starts q s = false.
Proof.
  intros Hpq. destruct s as [|c t]; simpl; [reflexivity|].
  intros [Hc _]%andb_true_iff. auto.
Qed.

Lemma all_ends_false s :
  (forall c, p c = true -> q c = false) -> all p s = true -> ends q s = false.
Proof.
  intros Hpq. induction s as [|c t IH]; [reflexivity|].
  intros [Hc Ht]%andb_true_iff. destruct t as [|d t']; [simpl; auto|].
  change (ends q (String d t') = false). auto.
Qed.

Lemma starts_dropWhile s : starts p (dropWhile p s) = false.
Proof.
  induction s as [|c t IH]; simpl; [reflexivity|].
  destruct (p c) eqn:E; [exact IH|]. simpl. exact E.
Qed.

Lemma ends_dropWhileEnd s : ends p (dropWhileEnd p s) = false.
Proof.
  induction s as [|c t IH]; [reflexivity|].
  simpl dropWhileEnd.
  destruct (dropWhileEnd p t) as [|d t'] eqn:E; simpl.
  - destruct (p c) eqn:Ec; simpl; [reflexivity | exact Ec].
  - rewrite andb_false_r. exact IH.
Qed.

(** [dropWhileEnd] keeps the first code unit of what it returns. *)
Lemma starts_dropWhileEnd s :
  starts q (dropWhileEnd p s) = true -> starts q s = true.
Proof.
  destruct s as [|c t]; simpl; [auto|].
  destruct (p c && is_empty (dropWhileEnd p t)); simpl; [discriminate | auto].
Qed.

Lemma dropWhile_id s : starts p s = false -> dropWhile p s = s.
Proof. destruct s as [|c t]; simpl; [reflexivity|]. intros ->. reflexivity. Qed.

Lemma dropWhileEnd_id s : ends p s = false -> dropWhileEnd p s = s.
Proof.
  induction s as [|c t IH]; [reflexivity|].
  destruct t as [|d t'].
  - simpl. intros ->. reflexivity.
  - intros H. change (ends p (String d t') = false) in H.
    simpl dropWhileEnd in *. rewrite (IH H). simpl.
    rewrite andb_false_r. reflexivity.
Qed.

Lemma filter_id s : all p s = true -> filter p s = s.
Proof.
  induction s as [|c t IH]; simpl; [reflexivity|].
  intros [-> Ht]%andb_true_iff. rewrite (IH Ht). reflexivity.
Qed.

Lemma map_id (f : ascii -> ascii) s :
  (forall c, p c = true -> f c = c) -> all p s = true -> map f s = s.
Proof.
  intros Hf. induction s as [|c t IH]; simpl; [reflexivity|].
  intros [Hc Ht]%andb_true_iff. rewrite (Hf c Hc), (IH Ht). reflexivity.
Qed.

End Combinators.

Lemma starts_collapse q a s : starts q (collapse a s) = starts q s.
Proof.
  induction s as [|c t IH]; simpl; [reflexivity|].
  destruct (Ascii.eqb c a && starts (Ascii.eqb a) t) eqn:E; [|reflexivity].
  rewrite IH. apply andb_true_iff in E as [Ec Et].
  destruct t as [|d t']; simpl in *; [discriminate|].
  apply Ascii.eqb_eq in Ec, Et. congruence.
Qed.

Lemma no_double_collapse a s : no_double a (collapse a s) = true.
Proof.
  induction s as [|c t IH]; simpl; [reflexivity|].
  destruct (Ascii.eqb c a && starts (Ascii.eqb a) t) eqn:E; [exact IH|].
  simpl. rewrite starts_collapse, E, IH. reflexivity.
Qed.

Lemma no_double_collapse_other a b s :
  no_double a s = true -> no_double a (collapse b s) = true.
Proof.
  induction s as [|c t IH]; simpl; [reflexivity|].
  intros [Hc Ht]%andb_true_iff.
  destruct (Ascii.eqb c b && starts (Ascii.eqb b) t); [auto|].
  simpl. rewrite starts_collapse, Hc. auto.
Qed.

Lemma no_double_dropWhile a p s :
  no_double a s = true -> no_double a (dropWhile p s) = true.
Proof.
  induction s as [|c t IH]; simpl; [reflexivity|].
  intros H. destruct (p c); [|exact H].
  apply andb_true_iff in H as [_ Ht]. auto.
Qed.

Lemma no_double_dropWhileEnd a p s :
  no_double a s = true -> no_double a (dropWhileEnd p s) = true.
Proof.
  induction s as [|c t IH]; simpl; [reflexivity|].
  intros [Hc Ht]%andb_true_iff.
  destruct (p c && is_empty (dropWhileEnd p t)); [reflexivity|].
  simpl. rewrite (IH Ht), andb_true_r.
  destruct (Ascii.eqb c a); [|reflexivity]. simpl in *.
  destruct (starts (Ascii.eqb a) (dropWhileEnd p t)) eqn:E; [|reflexivity].
  apply starts_dropWhileEnd in E. rewrite E in Hc. discriminate.
Qed.

Lemma collapse_id a s : no_double a s = true -> collapse a s = s.
Proof.
  induction s as [|c t IH]; simpl; [reflexivity|].
  intros [Hc Ht]%andb_true_iff. apply negb_true_iff in Hc.
  rewrite Hc, (IH Ht). reflexivity.
Qed.

(** ** [sanitizeSlug] and [isSlugValid] *)

Lemma sanitizeSlug_sanitized input : sanitized (sanitizeSlug input) = true.
Proof.
  unfold sanitizeSlug, sanitized.
  destruct (is_empty (toLowerCase (trim input))); [reflexivity|].
  set (s := filter is_slug_char _).
  assert (Hs : all is_slug_char s = true) by apply all_filter.
  unfold trim_separators.
  repeat (apply andb_true_iff; split).
  - auto using all_dropWhileEnd, all_dropWhile, all_collapse.
  - auto using no_double_dropWhileEnd, no_double_dropWhile,
      no_double_collapse_other, no_double_collapse.
  - auto using no_double_dropWhileEnd, no_double_dropWhile, no_double_collapse.
  - apply negb_true_iff.
    destruct (starts is_sep (dropWhileEnd is_sep _)) eqn:E; [|reflexivity].
    apply starts_dropWhileEnd in E. rewrite starts_dropWhile in E. discriminate.
  - apply negb_true_iff, ends_dropWhileEnd.
Qed.

(** A sanitized string goes through [sanitizeSlug] unchanged. *)
Lemma sanitizeSlug_fixes_sanitized s : sanitized s = true -> sanitizeSlug s = s.
Proof.
  unfold sanitized. rewrite !andb_true_iff, !negb_true_iff.
  intros [[[[Hall Hd] Hu] Hst] Hen].
  assert (Htrim : trim s = s).
  { unfold trim.
    rewrite dropWhile_id by eauto using all_starts_false, slug_char_not_white.
    apply dropWhileEnd_id. eauto using all_ends_false, slug_char_not_white. }
  assert (Hlow : toLowerCase s = s)
    by (unfold toLowerCase; eauto using map_id, slug_char_lower).
  unfold sanitizeSlug. rewrite Htrim, Hlow.
  destruct s as [|c t]; [reflexivity|]. cbn [is_empty].
  unfold spaces_to_dashes.
  rewrite (map_id is_slug_char) by auto using slug_char_not_space.
  rewrite filter_id by assumption.
  rewrite (collapse_id "-") by assumption.
  rewrite (collapse_id "_") by assumption.
  unfold trim_separators.
  rewrite dropWhile_id by assumption.
  apply dropWhileEnd_id. assumption.
Qed.

Lemma sanitizeSlug_idempotent input :
  sanitizeSlug (sanitizeSlug input) = sanitizeSlug input.
Proof. apply sanitizeSlug_fixes_sanitized, sanitizeSlug_sanitized. Qed.

(** C7 (as amended): [sanitizeSlug] is a total function: for every input
    its result is the input trimmed, lowercased, with spaces turned into
    dashes, characters outside [[a-z0-9_-]] removed, runs of dashes and runs
    of underscores collapsed, and leading and trailing separators removed.
    The result is lower case, trimmed, contains only [[a-z0-9_-]] (so no
    space is left), has no two adjacent dashes and no two adjacent
    underscores, and neither starts nor ends with a separator.  A dash next to
    an underscore may remain. *)
Theorem sanitizeSlug_postcondition (input : string) :
  let out := sanitizeSlug input in
  out = trim_separators
          (collapse "_" (collapse "-"
             (filter is_slug_char
                (spaces_to_dashes (toLowerCase (trim input))))))
  /\ all is_slug_char out = true
  /\ toLowerCase out = out
  /\ trim out = out
  /\ no_double "-" out = true
  /\ no_double "_" out = true
  /\ starts is_sep out = false
  /\ ends is_sep out = false.
Proof.
  intros out. pose proof (sanitizeSlug_sanitized input) as H. fold out in H.
  unfold sanitized in H. rewrite !andb_true_iff, !negb_true_iff in H.
  destruct H as [[[[Hall Hd] Hu] Hst] Hen].
  repeat split; try assumption.
  - unfold out, sanitizeSlug.
    destruct (toLowerCase (trim input)); reflexivity.
  - unfold toLowerCase. eauto using map_id, slug_char_lower.
  - unfold trim.
    rewrite dropWhile_id by eauto using all_starts_false, slug_char_not_white.
    apply dropWhileEnd_id. eauto using all_ends_false, slug_char_not_white.
Qed.

(** C7 (as stated) fails: in the result for ["a-_b"] the separators [-] and
    [_] are adjacent. *)
Lemma sanitizeSlug_adjacent_separators :
  sanitizeSlug "a-_b" = "a-_b"
  /\ no_adjacent is_sep (sanitizeSlug "a-_b") = false.
Proof. split; reflexivity. Qed.

Example sanitizeSlug_spaces : sanitizeSlug "  My  Summer Sale! " = "my-summer-sale".
Proof. reflexivity. Qed.

Example sanitizeSlug_may_be_empty : sanitizeSlug " -_!?_- " = "".
Proof. reflexivity. Qed.

(** C8: for every slug that [isSlugValid] accepts, sanitizing twice gives
    what sanitizing once gives. *)
Theorem sanitizeSlug_idempotent_on_valid (s : string) :
  isSlugValid s = Ok tt ->
  sanitizeSlug (sanitizeSlug s) = sanitizeSlug s.
Proof. intros _. apply sanitizeSlug_idempotent. Qed.

Lemma sanitizeSlug_idempotent_on_valid_witness :
  isSlugValid "a--b" = Ok tt
  /\ sanitizeSlug "a--b" = "a-b"
  /\ sanitizeSlug (sanitizeSlug "a--b") = sanitizeSlug "a--b".
Proof.
  split; [reflexivity|]. split; [reflexivity|].
  apply (sanitizeSlug_idempotent_on_valid "a--b"). reflexivity.
Defined.

(** C9: [isSlugValid] and its variant without the conjunct
    [slug.length > 1] return the same result on every string, since the
    length check before the regular expression leaves only slugs of at least
    3 code units. *)
Theorem isSlugValid_carve_out_unreachable (slug0 : string) :
  isSlugValid slug0 = isSlugValid_regex_always slug0.
Proof.
  unfold isSlugValid, isSlugValid_regex_always.
  destruct (is_empty slug0); [reflexivity|].
  destruct (String.length slug0 <? 3)%nat eqn:Hlen; [reflexivity|].
  apply Nat.ltb_ge in Hlen.
  assert (Hone : (1 <? String.length slug0)%nat = true)
    by (apply Nat.ltb_lt; lia).
  rewrite Hone, andb_true_r. reflexivity.
Qed.

(** Every slug that reaches the regular expression has at least 3 code
    units. *)
Lemma isSlugValid_charset_length slug0 :
  isSlugValid slug0 = Err SlugCharsetInvalid \/ isSlugValid slug0 = Ok tt ->
  (3 <= String.length slug0 <= 32)%nat.
Proof.
  unfold isSlugValid.
  destruct (is_empty slug0); [intros [|]; discriminate|].
  destruct (String.length slug0 <? 3)%nat eqn:H3;
    destruct (32 <? String.length slug0)%nat eqn:H32; simpl;
    try (intros [|]; discriminate).
  apply Nat.ltb_ge in H3, H32. lia.
Qed.

(** ** The store *)

Lemma autoDisable_map now ls :
  fst (autoDisable now ls) = List.map (autoDisable1 now) ls.
Proof.
  induction ls as [|l t IH]; simpl; [reflexivity|].
  destruct (autoDisable now t) as [t' ch]. simpl in IH. subst t'.
  destruct (enabled l && isExpired now l) eqn:E; simpl;
    unfold autoDisable1; rewrite E; reflexivity.
Qed.

Lemma autoDisable_changed now ls :
  snd (autoDisable now ls)
  = existsb (fun l => enabled l && isExpired now l) ls.
Proof.
  induction ls as [|l t IH]; simpl; [reflexivity|].
  destruct (autoDisable now t) as [t' ch]. simpl in IH. subst ch.
  destruct (enabled l && isExpired now l); reflexivity.
Qed.

Lemma autoDisable_unchanged now ls :
  snd (autoDisable now ls) = false -> fst (autoDisable now ls) = ls.
Proof.
  induction ls as [|l t IH]; simpl; [reflexivity|].
  destruct (autoDisable now t) as [t' ch]. simpl in IH.
  destruct (enabled l && isExpired now l); simpl; [discriminate|].
  intros H. rewrite (IH H). reflexivity.
Qed.

Lemma links_ensureAutoDisableExpired now st :
  links (ensureAutoDisableExpired now st)
  = List.map (autoDisable1 now) (links st).
Proof.
  unfold ensureAutoDisableExpired. rewrite <- autoDisable_map.
  destruct (autoDisable now (links st)) as [ls []]; reflexivity.
Qed.

(** The sweep leaves the snapshot equal to the links in memory. *)
Lemma stored_ensureAutoDisableExpired now st :
  stored st = links st ->
  stored (ensureAutoDisableExpired now st)
  = links (ensureAutoDisableExpired now st).
Proof.
  intros Hst. unfold ensureAutoDisableExpired.
  pose proof (autoDisable_unchanged now (links st)) as Hun.
  destruct (autoDisable now (links st)) as [ls []]; simpl in *; [reflexivity|].
  rewrite Hst. symmetry. auto.
Qed.

(** The sweep persists when it disabled a link. *)
Lemma stored_ensureAutoDisableExpired_changed now st :
  existsb (fun l => enabled l && isExpired now l) (links st) = true ->
  stored (ensureAutoDisableExpired now st)
  = links (ensureAutoDisableExpired now st).
Proof.
  rewrite <- autoDisable_changed. unfold ensureAutoDisableExpired.
  destruct (autoDisable now (links st)) as [ls ch]; simpl.
  intros ->. reflexivity.
Qed.

Lemma autoDisable1_active now l :
  computeStatus now l = Active -> autoDisable1 now l = l.
Proof.
  unfold computeStatus, autoDisable1.
  destruct (isExpired now l); [discriminate|].
  rewrite andb_false_r. reflexivity.
Qed.

Lemma find_map_by_id (f : Link -> Link) id ls :
  (forall l, link_id (f l) = link_id l) ->
  find (fun l => bool_decide (link_id l = id)) (List.map f ls)
  = f <$> find (fun l => bool_decide (link_id l = id)) ls.
Proof.
  intros Hf. induction ls as [|x t IH]; simpl; [reflexivity|].
  rewrite Hf. destruct (bool_decide (link_id x = id)); [reflexivity | exact IH].
Qed.

Lemma link_id_autoDisable1 now l : link_id (autoDisable1 now l) = link_id l.
Proof. unfold autoDisable1. destruct (enabled l && isExpired now l); reflexivity. Qed.

Lemma findLinkById_renderLinks now id st :
  findLinkById id (renderLinks now st)
  = autoDisable1 now <$> findLinkById id st.
Proof.
  unfold findLinkById, renderLinks.
  rewrite links_ensureAutoDisableExpired.
  apply find_map_by_id, link_id_autoDisable1.
Qed.

Lemma findLinkById_id id st l : findLinkById id st = Some l -> link_id l = id.
Proof.
  unfold findLinkById. intros H. apply find_some in H as [_ H].
  apply bool_decide_eq_true in H. exact H.
Qed.

(** [findIndex] and [find] with the same test return the same link, and
    [find] returns the merged link after the assignment at that index. *)
Lemma find_list_find id p ls l :
  find (fun l => bool_decide (link_id l = id)) ls = Some l ->
  exists idx,
    list_find (fun l => link_id l = id) ls = Some (idx, l)
    /\ find (fun l => bool_decide (link_id l = id)) (<[idx := merge l p]> ls)
       = Some (merge l p).
Proof.
  induction ls as [|x t IH]; simpl; [discriminate|].
  unfold list_find; fold (list_find (fun l => link_id l = id) t).
  case_bool_decide as Hx; rewrite decide_bool_decide.
  - intros [= ->]. exists O. rewrite bool_decide_eq_true_2 by assumption.
    split; [reflexivity|]. simpl.
    rewrite bool_decide_eq_true_2 by assumption. reflexivity.
  - intros H. destruct (IH H) as (idx & Hfind & Hupd).
    exists (S idx). rewrite bool_decide_eq_false_2 by assumption.
    rewrite Hfind. split; [reflexivity|]. simpl.
    rewrite bool_decide_eq_false_2 by assumption. exact Hupd.
Qed.

Lemma updateLink_found id p st l :
  findLinkById id st = Some l ->
  exists idx,
    list_find (fun l => link_id l = id) (links st) = Some (idx, l)
    /\ updateLink id p st
       = (persistLinks (set_links (<[idx := merge l p]> (links st)) st), true)
    /\ findLinkById id (fst (updateLink id p st)) = Some (merge l p).
Proof.
  intros H. destruct (find_list_find id p _ _ H) as (idx & Hfind & Hupd).
  exists idx. unfold updateLink. rewrite Hfind. simpl. auto.
Qed.

(** ** Access and the lifecycle *)

Lemma Number_succ_below n : n < MAX_COUNT -> Number_succ n = n + 1.
Proof.
  intros H. unfold Number_succ. apply Z.ltb_lt in H. rewrite H. reflexivity.
Qed.

Lemma Number_succ_cases n :
  (n < MAX_COUNT /\ Number_succ n = n + 1)
  \/ (MAX_COUNT <= n /\ Number_succ n = n).
Proof.
  unfold Number_succ. destruct (Z.ltb_spec n MAX_COUNT); [left | right]; auto.
Qed.

Lemma computeStatus_Active now l :
  computeStatus now l = Active -> enabled l = true /\ isExpired now l = false.
Proof.
  unfold computeStatus.
  destruct (isExpired now l); [discriminate|].
  destruct (enabled l); [auto | discriminate].
Qed.

Lemma recordClick_active now later l st :
  findLinkById (link_id l) st = Some l ->
  computeStatus now l = Active ->
  snd (recordClickAndMaybeOpen now later l st) = Ok (originalUrl l)
  /\ findLinkById (link_id l) (fst (recordClickAndMaybeOpen now later l st))
     = Some (autoDisable1 later (with_clicks (Number_succ (clicks l)) l))
  /\ stored (fst (recordClickAndMaybeOpen now later l st))
     = links (fst (recordClickAndMaybeOpen now later l st)).
Proof.
  intros Hfind Hact. unfold recordClickAndMaybeOpen. rewrite Hact. simpl.
  split; [reflexivity|].
  set (p := mkPatch None None None None (Some (Number_succ (clicks l)))).
  destruct (updateLink_found _ p _ _ Hfind) as (idx & _ & Hst & Hnew).
  split.
  - rewrite findLinkById_renderLinks, Hnew. reflexivity.
  - unfold renderLinks. apply stored_ensureAutoDisableExpired.
    rewrite Hst. reflexivity.
Qed.

(** C2 (as amended): for every stored link whose status is Active when the
    access checks it, at [now], and whose [clicks] is below [2^53], the
    access succeeds with the destination and a following [findLinkById] on
    the same id observes [clicks] one higher.  No other field changes, but
    for [enabled]: the sweep of the listing that follows the count, at
    [later], sets it to [false] when the link has expired by then.  The
    snapshot in [localStorage] holds the new links, so a reload finds the
    same link. *)
Theorem access_increments_clicks
    (now later : Z) (id : string) (st : State) (l : Link) :
  findLinkById id st = Some l ->
  computeStatus now l = Active ->
  clicks l < MAX_COUNT ->
  let st' := fst (accessLink now later id st) in
  snd (accessLink now later id st) = Ok (originalUrl l)
  /\ clicks <$> findLinkById id st' = Some (clicks l + 1)
  /\ (isExpired later l = false ->
        findLinkById id st' = Some (with_clicks (clicks l + 1) l))
  /\ (isExpired later l = true ->
        findLinkById id st'
        = Some (with_enabled false (with_clicks (clicks l + 1) l)))
  /\ stored st' = links st'
  /\ findLinkById id (loadData later st') = findLinkById id st'.
Proof.
  intros Hfind Hact Hlt st'. subst st'.
  pose proof (findLinkById_id _ _ _ Hfind) as Hid. subst id.
  unfold accessLink. rewrite Hfind.
  destruct (recordClick_active now later l st Hfind Hact) as (Hres & Hnew & Hsto).
  rewrite (Number_succ_below _ Hlt) in Hnew.
  destruct (computeStatus_Active _ _ Hact) as [Hen _].
  assert (Hsweep : autoDisable1 later (with_clicks (clicks l + 1) l)
                   = if isExpired later l
                     then with_enabled false (with_clicks (clicks l + 1) l)
                     else with_clicks (clicks l + 1) l).
  { unfold autoDisable1.
    change (isExpired later (with_clicks (clicks l + 1) l))
      with (isExpired later l).
    change (enabled (with_clicks (clicks l + 1) l)) with (enabled l).
    rewrite Hen. destruct (isExpired later l); reflexivity. }
  rewrite Hsweep in Hnew.
  split; [exact Hres|].
  split; [rewrite Hnew; destruct (isExpired later l); reflexivity|].
  split; [intros Hx; rewrite Hnew, Hx; reflexivity|].
  split; [intros Hx; rewrite Hnew, Hx; reflexivity|].
  split; [exact Hsto|].
  unfold loadData.
  change (findLinkById (link_id l)
            (renderLinks later
               (set_links (stored (fst (recordClickAndMaybeOpen now later l st)))
                  (fst (recordClickAndMaybeOpen now later l st))))
          = findLinkById (link_id l) (fst (recordClickAndMaybeOpen now later l st))).
  rewrite findLinkById_renderLinks.
  unfold findLinkById at 1. simpl. rewrite Hsto.
  fold (findLinkById (link_id l) (fst (recordClickAndMaybeOpen now later l st))).
  rewrite Hnew. simpl. f_equal.
  unfold autoDisable1.
  destruct (isExpired later l) eqn:Hx; simpl.
  - reflexivity.
  - change (isExpired later (with_clicks (clicks l + 1) l))
      with (isExpired later l).
    rewrite Hx, andb_false_r. reflexivity.
Qed.

(** C3: for every stored link, an access of an expired link shows
    LinkExpired whatever [enabled] is, an access of a disabled link that is
    not expired shows LinkDisabled, the destination is returned only for an
    Active link, and an access that fails (also LinkNotFound) leaves the whole
    state, so every [clicks], unchanged. *)
Theorem access_error_contract (now later : Z) (id : string) (st : State) :
  (forall l t, findLinkById id st = Some l ->
     expiresAt l = Millis t -> t < now ->
     accessLink now later id st = (st, Err LinkExpired))
  /\ (forall l, findLinkById id st = Some l ->
        enabled l = false -> isExpired now l = false ->
        accessLink now later id st = (st, Err LinkDisabled))
  /\ (forall url, snd (accessLink now later id st) = Ok url ->
        exists l, findLinkById id st = Some l
                  /\ computeStatus now l = Active /\ url = originalUrl l)
  /\ (forall e, snd (accessLink now later id st) = Err e ->
        fst (accessLink now later id st) = st).
Proof.
  unfold accessLink, recordClickAndMaybeOpen.
  repeat split.
  - intros l t -> Ht Hlt. unfold computeStatus, isExpired. rewrite Ht.
    apply Z.ltb_lt in Hlt. rewrite Hlt. reflexivity.
  - intros l -> Hen Hex. unfold computeStatus. rewrite Hex, Hen. reflexivity.
  - intros url. destruct (findLinkById id st) as [l|]; [|discriminate].
    destruct (computeStatus now l) eqn:E; simpl; try discriminate.
    intros [= <-]. eauto.
  - intros e. destruct (findLinkById id st) as [l|]; [|reflexivity].
    destruct (computeStatus now l); simpl; [discriminate | reflexivity..].
Qed.

(** The sweep disables, and persists, an enabled link that has expired. *)
Lemma renderLinks_disables_expired now id st l t :
  findLinkById id st = Some l ->
  enabled l = true -> expiresAt l = Millis t -> t < now ->
  findLinkById id (renderLinks now st) = Some (with_enabled false l)
  /\ stored (renderLinks now st) = links (renderLinks now st).
Proof.
  intros Hfind Hen Hex Hlt.
  assert (Hexp : enabled l && isExpired now l = true).
  { unfold isExpired. rewrite Hen, Hex. apply Z.ltb_lt. exact Hlt. }
  split.
  - rewrite findLinkById_renderLinks, Hfind. simpl.
    unfold autoDisable1. rewrite Hexp. reflexivity.
  - apply stored_ensureAutoDisableExpired_changed.
    apply existsb_exists. exists l. split; [|exact Hexp].
    unfold findLinkById in Hfind. apply find_some in Hfind as [Hin _]. exact Hin.
Qed.

(** C4 (as amended): an access does not run the sweep when it fails.  For
    every stored link with [enabled == true] and [expiresAt] in the past, the
    access shows LinkExpired and leaves the state as it was, the stored record
    still enabled; the sweep of the next listing ([renderLinks]) is what sets
    [enabled = false] on it and persists. *)
Theorem access_of_expired_leaves_enabled
    (now later : Z) (id : string) (st : State) (l : Link) (t : Z) :
  findLinkById id st = Some l ->
  enabled l = true -> expiresAt l = Millis t -> t < now ->
  accessLink now later id st = (st, Err LinkExpired)
  /\ enabled <$> findLinkById id (fst (accessLink now later id st)) = Some true
  /\ findLinkById id (renderLinks now (fst (accessLink now later id st)))
     = Some (with_enabled false l)
  /\ stored (renderLinks now (fst (accessLink now later id st)))
     = links (renderLinks now (fst (accessLink now later id st))).
Proof.
  intros Hfind Hen Hex Hlt.
  assert (Hacc : accessLink now later id st = (st, Err LinkExpired)).
  { unfold accessLink, recordClickAndMaybeOpen. rewrite Hfind.
    unfold computeStatus, isExpired. rewrite Hex.
    apply Z.ltb_lt in Hlt. rewrite Hlt. reflexivity. }
  rewrite Hacc. simpl. rewrite Hfind. simpl. rewrite Hen.
  pose proof (renderLinks_disables_expired now id st l t Hfind Hen Hex Hlt)
    as [H1 H2].
  auto.
Qed.

(** C10: a link whose [expiresAt] is present but is not a date never
    expires: [isExpired] is false at every instant, its status is Active when
    enabled and Disabled otherwise, never Expired, and the access of such a
    stored, enabled link succeeds. *)
Theorem invalid_expiry_never_expires (now : Z) (l : Link) :
  expiresAt l = InvalidDate ->
  isExpired now l = false
  /\ computeStatus now l = (if enabled l then Active else Disabled)
  /\ computeStatus now l <> Expired
  /\ (forall later id st, findLinkById id st = Some l -> enabled l = true ->
        snd (accessLink now later id st) = Ok (originalUrl l)).
Proof.
  intros Hinv.
  assert (Hexp : isExpired now l = false) by (unfold isExpired; rewrite Hinv; reflexivity).
  assert (Hst : computeStatus now l = if enabled l then Active else Disabled).
  { unfold computeStatus. rewrite Hexp. destruct (enabled l); reflexivity. }
  repeat split; try assumption.
  - rewrite Hst. destruct (enabled l); discriminate.
  - intros later id st Hfind Hen. unfold accessLink, recordClickAndMaybeOpen.
    rewrite Hfind, Hst, Hen. reflexivity.
Qed.

(** ** Random slugs *)

Lemma alphabet_get k :
  (k < 36)%nat ->
  exists c, String.get k alphabet = Some c /\ is_lower_alnum c = true.
Proof.
  intros Hk.
  do 36 (destruct k as [|k]; [eexists; split; reflexivity|]).
  lia.
Qed.

Lemma random_index_lt d : (random_index d < 36)%nat.
Proof. unfold random_index. apply Nat.mod_upper_bound. discriminate. Qed.

Lemma randomSlug_length len rnd : String.length (randomSlug len rnd) = len.
Proof.
  revert rnd. induction len as [|n IH]; intros rnd; [reflexivity|].
  cbn [randomSlug].
  destruct (alphabet_get _ (random_index_lt (rnd O))) as (c & -> & _).
  simpl. rewrite IH. reflexivity.
Qed.

Lemma randomSlug_alnum len rnd : all is_lower_alnum (randomSlug len rnd) = true.
Proof.
  revert rnd. induction len as [|n IH]; intros rnd; [reflexivity|].
  cbn [randomSlug].
  destruct (alphabet_get _ (random_index_lt (rnd O))) as (c & -> & Hc).
  simpl. rewrite Hc, IH. reflexivity.
Qed.

Lemma randomSlug_ext len f g :
  (forall i, f i = g i) -> randomSlug len f = randomSlug len g.
Proof.
  revert f g. induction len as [|n IH]; intros f g Hfg; [reflexivity|].
  cbn [randomSlug]. rewrite (Hfg O).
  rewrite (IH (skip 1 f) (skip 1 g)); [reflexivity|].
  intros i. unfold skip. apply Hfg.
Qed.

Lemma candidate_skip rnd i : candidate (skip 6 rnd) i = candidate rnd (S i).
Proof.
  unfold candidate. apply randomSlug_ext. intros j. unfold skip.
  f_equal. lia.
Qed.

Lemma candidate_zero rnd : candidate rnd O = randomSlug 6 rnd.
Proof. unfold candidate. apply randomSlug_ext. intros j. reflexivity. Qed.

Lemma candidate_shape rnd i :
  String.length (candidate rnd i) = 6%nat
  /\ all is_lower_alnum (candidate rnd i) = true.
Proof. split; [apply randomSlug_length | apply randomSlug_alnum]. Qed.

Lemma reserved_spec s : reserved s = true <-> In s RESERVED_SLUGS.
Proof.
  unfold reserved. rewrite existsb_exists. split.
  - intros (x & Hin & Heq). apply String.eqb_eq in Heq. subst x. exact Hin.
  - intros Hin. exists s. split; [exact Hin | apply String.eqb_refl].
Qed.

(** No reserved slug has 6 code units. *)
Lemma reserved_length s : reserved s = true -> String.length s <> 6%nat.
Proof.
  unfold reserved, RESERVED_SLUGS. simpl. rewrite !orb_true_iff.
  intros H.
  repeat (destruct H as [H|H]; [apply String.eqb_eq in H; subst s; discriminate|]).
  discriminate.
Qed.

Lemma candidate_not_reserved rnd i : reserved (candidate rnd i) = false.
Proof.
  destruct (reserved (candidate rnd i)) eqn:E; [|reflexivity].
  apply reserved_length in E. destruct (candidate_shape rnd i) as [Hl _].
  contradiction.
Qed.

(** The loop returns the first free candidate among the first [attempts]
    ones, or [""] when none of them is free. *)
Lemma generateSlug_spec attempts rnd st :
  (exists i, (i < attempts)%nat
     /\ generateSlug attempts rnd st = candidate rnd i
     /\ free_slug st (candidate rnd i) = true
     /\ forall j, (j < i)%nat -> free_slug st (candidate rnd j) = false)
  \/ (generateSlug attempts rnd st = ""
      /\ forall i, (i < attempts)%nat -> free_slug st (candidate rnd i) = false).
Proof.
  revert rnd. induction attempts as [|n IH]; intros rnd.
  - right. split; [reflexivity|]. intros i Hi. lia.
  - cbn [generateSlug]. fold (free_slug st (randomSlug 6 rnd)).
    rewrite <- candidate_zero.
    destruct (free_slug st (candidate rnd 0)) eqn:E.
    + left. exists O. repeat split; [lia | exact E | intros j Hj; lia].
    + destruct (IH (skip 6 rnd)) as [(i & Hi & Hg & Hf & Hlt)|[Hg Hnone]].
      * left. exists (S i). rewrite candidate_skip in Hg, Hf.
        repeat split; [lia | exact Hg | exact Hf |].
        intros [|j] Hj; [exact E|]. rewrite <- candidate_skip. apply Hlt. lia.
      * right. split; [exact Hg|].
        intros [|i] Hi; [exact E|]. rewrite <- candidate_skip. apply Hnone. lia.
Qed.

Lemma candidate_not_empty rnd i : is_empty (candidate rnd i) = false.
Proof.
  destruct (candidate_shape rnd i) as [Hl _].
  destruct (candidate rnd i); [discriminate | reflexivity].
Qed.

Lemma normalizeUrl_errors URL input e :
  normalizeUrl URL input = Err e ->
  e = UrlRequired \/ e = InvalidUrl \/ e = UnsupportedScheme.
Proof.
  unfold normalizeUrl. destruct (is_empty (trim input)); [intros [= <-]; auto|].
  destruct (URL _) as [u|]; [|intros [= <-]; auto].
  destruct (negb _); [intros [= <-]; auto | discriminate].
Qed.

(** [createLink] leaves the state as it was whenever it fails. *)
Lemma createLink_error URL now newId rnd url raw en ex st e :
  snd (createLink URL now newId rnd url raw en ex st) = Err e ->
  fst (createLink URL now newId rnd url raw en ex st) = st.
Proof.
  unfold createLink.
  destruct (getCurrentUserId st); [|reflexivity].
  destruct (normalizeUrl URL url); [|reflexivity].
  destruct (readExpiry ex); [|reflexivity].
  match goal with |- context [match ?c with Ok _ => _ | Err _ => _ end] =>
    destruct c end; [discriminate | reflexivity].
Qed.

(** ** [normalizeUrl] *)

Lemma trim_trim s : trim (trim s) = trim s.
Proof.
  unfold trim at 1.
  assert (Hs : starts is_white (trim s) = false).
  { unfold trim. destruct (starts is_white (dropWhileEnd _ _)) eqn:E; [|reflexivity].
    apply starts_dropWhileEnd in E. rewrite starts_dropWhile in E. discriminate. }
  rewrite (dropWhile_id _ _ Hs).
  apply dropWhileEnd_id. unfold trim. apply ends_dropWhileEnd.
Qed.

Lemma starts_prefix p c s t :
  String.prefix (String c s) t = true -> p c = true -> starts p t = true.
Proof.
  destruct t as [|d t']; simpl; [discriminate|].
  destruct (ascii_dec c d) as [->|]; [auto | discriminate].
Qed.

(** An input that starts with [scheme://] carries that scheme. *)
Lemma looksLikeScheme_uriScheme s :
  looksLikeScheme s = true -> exists sch, uriScheme s = Some sch.
Proof.
  destruct s as [|c t]; simpl; [discriminate|].
  intros [Hc Hp]%andb_true_iff. rewrite Hc. simpl.
  rewrite (starts_prefix (Ascii.eqb ":") _ _ _ Hp) by reflexivity.
  eauto.
Qed.

Lemma append_colon_inj s t : s +:+ ":" = t +:+ ":" -> s = t.
Proof.
  revert t. induction s as [|c s IH]; intros [|d t]; simpl; try reflexivity.
  - destruct t; discriminate.
  - destruct s; discriminate.
  - intros [= -> H]. f_equal. auto.
Qed.

(** The test of [normalizeUrl] on the protocol of a lawful constructor is the
    test of the scheme. *)
Lemma protocol_http sch :
  existsb (String.eqb (toLowerCase sch +:+ ":")) ["http:"; "https:"]
  = http_scheme sch.
Proof.
  unfold http_scheme. simpl. rewrite !orb_false_r.
  assert (H : forall t, String.eqb (toLowerCase sch +:+ ":") (t +:+ ":")
                        = String.eqb (toLowerCase sch) t).
  { intros t. destruct (String.eqb_spec (toLowerCase sch) t) as [->|Hne].
    - apply String.eqb_refl.
    - apply String.eqb_neq. intros H. apply Hne, append_colon_inj, H. }
  rewrite <- (H "http"), <- (H "https"). reflexivity.
Qed.

Lemma URL_table_lawful : URL_scheme_law URL_table.
Proof.
  intros s u sch. unfold URL_table.
  repeat match goal with
         | |- context [String.eqb s ?t] =>
             destruct (String.eqb_spec s t) as [->|_];
             [intros [= <-] H; vm_compute in H; injection H as <-; reflexivity|]
         end.
  discriminate.
Qed.

(** C6 (as amended): [normalizeUrl] trims its input and fails on an empty
    one; an input that does not start with [scheme://], so every input
    without a URI scheme, is parsed with [https://] in front of it, the
    result being InvalidUrl when that string does not parse and the parsed
    URL otherwise; an input that starts with [scheme://] is parsed as it is,
    and when its scheme is not http or https it never succeeds: it fails with
    InvalidUrl when it does not parse and with UnsupportedScheme when it
    does.  An input whose scheme is not followed by [//] is not covered by the
    last clause. *)
Theorem normalizeUrl_scheme_handling (URL : string -> option Url) (input : string) :
  URL_scheme_law URL ->
  let raw := trim input in
  normalizeUrl URL input = normalizeUrl URL raw
  /\ (raw = "" -> normalizeUrl URL input = Err UrlRequired)
  /\ (uriScheme raw = None -> looksLikeScheme raw = false)
  /\ (raw <> "" -> looksLikeScheme raw = false ->
        normalizeUrl URL input
        = match URL ("https://" +:+ raw) with
          | None => Err InvalidUrl
          | Some u => Ok (href u)
          end)
  /\ (forall sch, looksLikeScheme raw = true -> uriScheme raw = Some sch ->
        normalizeUrl URL input
        = match URL raw with
          | None => Err InvalidUrl
          | Some u => if http_scheme sch then Ok (href u)
                      else Err UnsupportedScheme
          end).
Proof.
  intros Hlaw raw.
  assert (Htrim : trim raw = raw) by apply trim_trim.
  split; [unfold normalizeUrl; rewrite Htrim; reflexivity|].
  split; [intros H; unfold normalizeUrl; fold raw; rewrite H; reflexivity|].
  split.
  { intros Hnone. destruct (looksLikeScheme raw) eqn:E; [|reflexivity].
    apply looksLikeScheme_uriScheme in E as [sch E]. congruence. }
  split.
  - intros Hne Hlook. unfold normalizeUrl. fold raw. rewrite Hlook.
    destruct raw as [|c t] eqn:Eraw; [contradiction|]. cbn [is_empty].
    destruct (URL _) as [u|] eqn:Eu; [|reflexivity].
    rewrite (Hlaw _ u "https" Eu) by reflexivity.
    reflexivity.
  - intros sch Hlook Hsch. unfold normalizeUrl. fold raw. rewrite Hlook.
    destruct raw as [|c t] eqn:Eraw; [discriminate|]. cbn [is_empty].
    destruct (URL _) as [u|] eqn:Eu; [|reflexivity].
    rewrite (Hlaw _ u sch Eu Hsch), protocol_http.
    destruct (http_scheme sch); reflexivity.
Qed.

(** C6 (as stated) fails: ["mailto:a@b.c"] carries the URI scheme [mailto],
    which is neither http nor https, and [normalizeUrl] succeeds on it, with
    [https://] put in front. *)
Lemma normalizeUrl_accepts_mailto :
  uriScheme (trim "mailto:a@b.c") = Some "mailto"
  /\ http_scheme "mailto" = false
  /\ normalizeUrl URL_table "mailto:a@b.c" = Ok "https://mailto:a@b.c/".
Proof. repeat split; reflexivity. Qed.

Lemma normalizeUrl_scheme_handling_witness :
  normalizeUrl URL_table " ftp://example.com/file " = Err UnsupportedScheme
  /\ normalizeUrl URL_table "example.com/page" = Ok "https://example.com/page".
Proof.
  pose proof (normalizeUrl_scheme_handling URL_table " ftp://example.com/file "
                URL_table_lawful) as (_ & _ & _ & _ & Hftp).
  pose proof (normalizeUrl_scheme_handling URL_table "example.com/page"
                URL_table_lawful) as (_ & _ & _ & Hplain & _).
  split.
  - rewrite (Hftp "ftp"); reflexivity.
  - rewrite Hplain; [reflexivity | discriminate | reflexivity].
Defined.

(** ** The invariant of the store *)

Lemma slug_chars_lower s : all is_slug_char s = true -> toLowerCase s = s.
Proof. unfold toLowerCase. eauto using map_id, slug_char_lower. Qed.

Lemma all_weaken (p q : ascii -> bool) s :
  (forall c, p c = true -> q c = true) -> all p s = true -> all q s = true.
Proof.
  intros Hpq. induction s as [|c t IH]; simpl; [reflexivity|].
  intros [Hc Ht]%andb_true_iff. rewrite (Hpq c Hc). auto.
Qed.

(** *** Lists of ids and slugs *)

Section Keys.

Implicit Types ks : list (string * string).

Lemma elem_of_insert_inv {A} (l : list A) i x y :
  y ∈ <[i := x]> l -> y = x \/ y ∈ l.
Proof.
  intros [j Hj]%list_elem_of_lookup_1.
  apply list_lookup_insert_Some in Hj as [(_ & -> & _)|[_ Hj]]; [auto|].
  right. eapply list_elem_of_lookup_2, Hj.
Qed.

Lemma elem_of_List_filter {A} (p : A -> bool) (l : list A) x :
  x ∈ List.filter p l -> x ∈ l.
Proof.
  rewrite !list_elem_of_In, filter_In. tauto.
Qed.

Lemma ids_insert ks idx id s0 s :
  ks !! idx = Some (id, s0) -> (<[idx := (id, s)]> ks).*1 = ks.*1.
Proof.
  intros H. rewrite list_fmap_insert. apply list_insert_id.
  rewrite list_lookup_fmap, H. reflexivity.
Qed.

Lemma slug_chars_insert ks idx id s :
  all is_slug_char s = true -> slug_chars ks ->
  slug_chars (<[idx := (id, s)]> ks).
Proof. intros Hs Hks. apply Forall_insert; assumption. Qed.

(** Putting a slug at the place of an entry keeps different ids on
    different slugs when every entry that has the slug has the id of that
    place. *)
Lemma distinct_slugs_insert ks idx id s :
  (forall k, k ∈ ks -> k.2 = s -> k.1 = id) ->
  distinct_slugs ks -> distinct_slugs (<[idx := (id, s)]> ks).
Proof.
  intros Hfree Hks k1 k2 H1 H2 Hne Heq.
  apply elem_of_insert_inv in H1 as [->|H1], H2 as [->|H2]; simpl in *.
  - congruence.
  - apply Hne. symmetry. apply Hfree; [assumption | congruence].
  - apply Hne. apply Hfree; assumption.
  - exact (Hks k1 k2 H1 H2 Hne Heq).
Qed.

Lemma distinct_slugs_cons ks id s :
  (forall k, k ∈ ks -> k.2 <> s) ->
  distinct_slugs ks -> distinct_slugs ((id, s) :: ks).
Proof.
  intros Hfree Hks k1 k2 H1 H2 Hne Heq.
  apply elem_of_cons in H1 as [->|H1], H2 as [->|H2]; simpl in *.
  - congruence.
  - apply (Hfree k2 H2). congruence.
  - apply (Hfree k1 H1). congruence.
  - exact (Hks k1 k2 H1 H2 Hne Heq).
Qed.

Lemma distinct_slugs_filter (p : string * string -> bool) ks :
  distinct_slugs ks -> distinct_slugs (List.filter p ks).
Proof.
  intros Hks k1 k2 H1 H2. apply Hks; eauto using elem_of_List_filter.
Qed.

Lemma slug_chars_filter (p : string * string -> bool) ks :
  slug_chars ks -> slug_chars (List.filter p ks).
Proof.
  unfold slug_chars. rewrite !Forall_forall.
  intros Hks k Hk. eauto using elem_of_List_filter.
Qed.

Lemma ids_filter (p : string * string -> bool) ks :
  NoDup ks.*1 -> NoDup (List.filter p ks).*1.
Proof.
  induction ks as [|k t IH]; simpl; [auto|].
  intros [Hk Ht]%NoDup_cons. destruct (p k); simpl; [|auto].
  apply NoDup_cons. split; [|auto].
  intros (k' & Heq & Hin)%list_elem_of_fmap. apply Hk.
  apply list_elem_of_fmap. exists k'. eauto using elem_of_List_filter.
Qed.

End Keys.

Lemma key_filter (p : string -> bool) ls :
  key <$> List.filter (fun l => p (link_id l)) ls
  = List.filter (fun k => p k.1) (key <$> ls).
Proof.
  induction ls as [|l t IH]; [reflexivity|].
  cbn [List.filter fmap list_fmap].
  change ((key l).1) with (link_id l).
  destruct (p (link_id l)); cbn [fmap list_fmap]; [f_equal|]; exact IH.
Qed.

Lemma key_autoDisable1 now l : key (autoDisable1 now l) = key l.
Proof. unfold autoDisable1. destruct (enabled l && isExpired now l); reflexivity. Qed.

Lemma key_map (f : Link -> Link) ls :
  (forall l, key (f l) = key l) -> key <$> List.map f ls = key <$> ls.
Proof.
  intros Hf. induction ls as [|l t IH]; simpl; [reflexivity|].
  rewrite Hf. f_equal. exact IH.
Qed.

(** *** What each event keeps *)

Lemma store_ok_initial : store_ok initial /\ ids_unique initial.
Proof. repeat split; try constructor. intros k1 k2 H. inversion H. Qed.

Lemma keeps_refl st : keeps st st.
Proof. split; auto. Qed.

Lemma keeps_trans st1 st2 st3 : keeps st1 st2 -> keeps st2 st3 -> keeps st1 st3.
Proof. intros [H1 H2] [H3 H4]. split; auto. Qed.

(** An event that changes neither an id nor a slug keeps the invariant. *)
Lemma keeps_keys st st' :
  (stored st = links st -> stored st' = links st') ->
  key <$> links st' = key <$> links st ->
  keeps st st'.
Proof.
  intros Hst Hkeys. unfold keeps, store_ok, ids_unique. rewrite Hkeys.
  split; [intros (H1 & H2 & H3) | ]; auto.
Qed.

Lemma keeps_ensureAutoDisableExpired now st :
  keeps st (ensureAutoDisableExpired now st).
Proof.
  apply keeps_keys; [apply stored_ensureAutoDisableExpired|].
  rewrite links_ensureAutoDisableExpired.
  apply key_map, key_autoDisable1.
Qed.

Lemma updateLink_links id p st :
  updateLink id p st = (st, false)
  \/ exists idx l,
       links st !! idx = Some l /\ link_id l = id
       /\ fst (updateLink id p st)
          = persistLinks (set_links (<[idx := merge l p]> (links st)) st).
Proof.
  unfold updateLink.
  destruct (list_find _ _) as [[idx l]|] eqn:E; [right | left; auto].
  apply list_find_Some in E as (Hl & Hid & _). exists idx, l. auto.
Qed.

(** An update that carries no slug keeps the invariant. *)
Lemma keeps_updateLink id p st :
  p_slug p = None -> keeps st (fst (updateLink id p st)).
Proof.
  intros Hp.
  destruct (updateLink_links id p st) as [->|(idx & l & Hl & Hid & ->)];
    [apply keeps_refl|].
  apply keeps_keys; [reflexivity|]. simpl.
  rewrite list_fmap_insert. apply list_insert_id.
  rewrite list_lookup_fmap, Hl. unfold key. simpl. rewrite Hp. reflexivity.
Qed.

(** An update that carries a slug keeps the invariant when the slug is over
    [[a-z0-9_-]] and no link with another id has it. *)
Lemma keeps_updateLink_slug id p s st :
  p_slug p = Some s ->
  all is_slug_char s = true ->
  (forall l, l ∈ links st -> slug l = s -> link_id l = id) ->
  keeps st (fst (updateLink id p st)).
Proof.
  intros Hp Hs Hfree.
  destruct (updateLink_links id p st) as [->|(idx & l & Hl & Hid & ->)];
    [apply keeps_refl|].
  assert (Hkeys : key <$> <[idx := merge l p]> (links st)
                  = <[idx := (id, s)]> (key <$> links st)).
  { rewrite list_fmap_insert. unfold key at 1. simpl. rewrite Hp, Hid.
    reflexivity. }
  assert (Hidx : (key <$> links st) !! idx = Some (id, slug l)).
  { rewrite list_lookup_fmap, Hl. unfold key. simpl. rewrite Hid. reflexivity. }
  unfold keeps, store_ok, ids_unique. simpl. rewrite Hkeys.
  split.
  - intros (_ & Hch & Hdis). split; [reflexivity|].
    split; [apply slug_chars_insert; assumption|].
    apply distinct_slugs_insert; [|exact Hdis].
    intros k (l' & -> & Hin)%list_elem_of_fmap. simpl. auto.
  - rewrite (ids_insert _ _ _ _ _ Hidx). auto.
Qed.

(** What a negative answer of [slugExists] says of the links. *)
Lemma slugExists_false s exclude st :
  slugExists s exclude st = false ->
  forall l, l ∈ links st -> slug l = toLowerCase s ->
            Some (link_id l) = exclude.
Proof.
  unfold slugExists. intros H l Hin Hsl.
  destruct (decide (Some (link_id l) = exclude)) as [|Hne]; [assumption|].
  assert (existsb
            (fun l => bool_decide (slug l = toLowerCase s)
                      && bool_decide (Some (link_id l) <> exclude))
            (links st) = true); [|congruence].
  apply existsb_exists. exists l. split; [apply list_elem_of_In, Hin|].
  rewrite !bool_decide_eq_true_2 by assumption. reflexivity.
Qed.

Lemma slugExists_true s exclude st :
  slugExists s exclude st = true ->
  exists l, l ∈ links st /\ slug l = toLowerCase s
            /\ Some (link_id l) <> exclude.
Proof.
  unfold slugExists. intros H. apply existsb_exists in H as (l & Hin & H).
  apply andb_true_iff in H as [H1 H2].
  apply bool_decide_eq_true in H1, H2.
  exists l. split; [apply list_elem_of_In, Hin | auto].
Qed.

(** A new link put in front keeps the invariant when its slug is over
    [[a-z0-9_-]] and [slugExists] does not find it; ids stay unrepeated when
    its id is new. *)
Lemma keeps_unshift link st :
  all is_slug_char (slug link) = true ->
  slugExists (slug link) None st = false ->
  (store_ok st -> store_ok (persistLinks (set_links (link :: links st) st)))
  /\ (fresh_uid st (link_id link) -> ids_unique st ->
      ids_unique (persistLinks (set_links (link :: links st) st))).
Proof.
  intros Hch Hfree. unfold store_ok, ids_unique. simpl. split.
  - intros (_ & Hchs & Hdis). split; [reflexivity|].
    split; [apply Forall_cons; auto|].
    apply distinct_slugs_cons; [|exact Hdis].
    intros k (l & -> & Hin)%list_elem_of_fmap Heq. simpl in Heq.
    pose proof (slugExists_false _ _ _ Hfree l Hin) as H.
    rewrite (slug_chars_lower _ Hch) in H. specialize (H Heq). discriminate.
  - intros Hfresh Hids. apply NoDup_cons. split; [|exact Hids].
    intros (k & Heq & (l & -> & Hin)%list_elem_of_fmap)%list_elem_of_fmap.
    unfold fresh_uid in Hfresh. rewrite Forall_forall in Hfresh.
    apply (Hfresh l Hin). simpl in Heq. congruence.
Qed.

Section Invariant.

Variable URL : string -> option Url.

Lemma keeps_createLink now newId rnd url raw en ex st :
  let st' := fst (createLink URL now newId rnd url raw en ex st) in
  (store_ok st -> store_ok st')
  /\ (fresh_uid st newId -> ids_unique st -> ids_unique st').
Proof.
  unfold createLink.
  destruct (getCurrentUserId st) as [user|]; [|simpl; auto].
  destruct (normalizeUrl URL url) as [dest|]; [|simpl; auto].
  destruct (readExpiry ex) as [expires|]; [|simpl; auto].
  destruct (is_empty (sanitizeSlug raw)) eqn:Eempty; cbn [negb].
  - destruct (generateSlug_spec 30 rnd st)
      as [(i & Hi & -> & Hf & _)|[-> _]]; [|simpl; auto].
    rewrite candidate_not_empty.
    unfold free_slug in Hf. apply andb_true_iff in Hf as [Hex _].
    apply negb_true_iff in Hex.
    cbn [fst]. match goal with |- context [set_links (?l :: _)] =>
      apply (keeps_unshift l) end; simpl; [|exact Hex].
    destruct (candidate_shape rnd i) as [_ Ha].
    eauto using all_weaken, lower_alnum_slug_char.
  - destruct (isSlugValid (sanitizeSlug raw)); [|simpl; auto].
    destruct (slugExists (sanitizeSlug raw) None st) eqn:Eex; [simpl; auto|].
    cbn [fst]. match goal with |- context [set_links (?l :: _)] =>
      apply (keeps_unshift l) end; simpl; [|exact Eex].
    pose proof (sanitizeSlug_sanitized raw) as Hs. unfold sanitized in Hs.
    rewrite !andb_true_iff in Hs. tauto.
Qed.

Lemma keeps_shortenSubmit now later newId rnd url raw en ex st :
  let st' := fst (shortenSubmit URL now later newId rnd url raw en ex st) in
  (store_ok st -> store_ok st')
  /\ (fresh_uid st newId -> ids_unique st -> ids_unique st').
Proof.
  unfold shortenSubmit.
  pose proof (keeps_createLink now newId rnd url raw en ex st) as [H1 H2].
  destruct (createLink URL now newId rnd url raw en ex st) as [st' [link|e]];
    simpl in *; [|auto].
  destruct (keeps_ensureAutoDisableExpired later st') as [H3 H4].
  unfold renderLinks. auto.
Qed.

Lemma keeps_saveEditFromForm now id url raw ex en st :
  keeps st (fst (saveEditFromForm URL now id url raw ex en st)).
Proof.
  unfold saveEditFromForm.
  destruct (findLinkById id st) as [l|]; [|apply keeps_refl].
  destruct (normalizeUrl URL url) as [dest|]; [|apply keeps_refl].
  destruct (isSlugValid (sanitizeSlug raw)); [|apply keeps_refl].
  destruct (slugExists (sanitizeSlug raw) (Some id) st) eqn:Eex;
    [apply keeps_refl|].
  destruct (readExpiry ex) as [expires|]; [|apply keeps_refl].
  cbn [fst]. unfold renderLinks.
  eapply keeps_trans; [|apply keeps_ensureAutoDisableExpired].
  eapply keeps_trans; [|apply keeps_ensureAutoDisableExpired].
  pose proof (sanitizeSlug_sanitized raw) as Hs. unfold sanitized in Hs.
  rewrite !andb_true_iff in Hs. destruct Hs as [[[[Hch _] _] _] _].
  apply (keeps_updateLink_slug _ _ (sanitizeSlug raw));
    [reflexivity | exact Hch |].
  intros l' Hin Hsl.
  pose proof (slugExists_false _ _ _ Eex l' Hin) as H.
  rewrite (slug_chars_lower _ Hch) in H. specialize (H Hsl). congruence.
Qed.

End Invariant.

Lemma filter_length_same {A} (p : A -> bool) ls :
  length (List.filter p ls) = length ls -> List.filter p ls = ls.
Proof.
  induction ls as [|x t IH]; simpl; [reflexivity|].
  destruct (p x); simpl.
  - intros [= H]. rewrite (IH H). reflexivity.
  - intros H. pose proof (List.filter_length_le p t). lia.
Qed.

Lemma keeps_deleteLink id st : keeps st (fst (deleteLink id st)).
Proof.
  unfold deleteLink. cbn [links set_links].
  set (p := fun i : string => bool_decide (i <> id)).
  change (fun l => bool_decide (link_id l <> id)) with (fun l => p (link_id l)).
  destruct (Nat.eqb_spec
              (length (List.filter (fun l => p (link_id l)) (links st)))
              (length (links st))) as [E|_]; cbn [fst].
  - apply filter_length_same in E. apply keeps_keys; simpl; rewrite E; auto.
  - unfold keeps, store_ok, ids_unique. simpl. rewrite key_filter.
    split; [intros (_ & Hch & Hdis) | intros Hids].
    + auto using slug_chars_filter, distinct_slugs_filter.
    + apply ids_filter, Hids.
Qed.

Lemma keeps_removeLink now id st : keeps st (fst (removeLink now id st)).
Proof.
  unfold removeLink. destruct (findLinkById id st); [|apply keeps_refl].
  cbn [fst]. unfold renderLinks.
  eapply keeps_trans; [|apply keeps_ensureAutoDisableExpired].
  apply keeps_deleteLink.
Qed.

Lemma keeps_accessLink now later id st :
  keeps st (fst (accessLink now later id st)).
Proof.
  unfold accessLink, recordClickAndMaybeOpen.
  destruct (findLinkById id st) as [l|]; [|apply keeps_refl].
  destruct (computeStatus now l); try apply keeps_refl.
  cbn [fst]. unfold renderLinks.
  eapply keeps_trans; [|apply keeps_ensureAutoDisableExpired].
  apply keeps_updateLink. reflexivity.
Qed.

Lemma keeps_toggleLink now later id st :
  keeps st (fst (toggleLink now later id st)).
Proof.
  unfold toggleLink.
  destruct (findLinkById id st) as [l|]; [|apply keeps_refl].
  destruct (isExpired now l); [apply keeps_refl|].
  cbn [fst]. unfold renderLinks.
  eapply keeps_trans; [|apply keeps_ensureAutoDisableExpired].
  apply keeps_updateLink. reflexivity.
Qed.

(** On reload the collection is read back from the snapshot. *)
Lemma store_ok_loadData now st : store_ok st -> keeps st (loadData now st).
Proof.
  intros (Hst & _). unfold loadData.
  eapply keeps_trans; [|apply keeps_ensureAutoDisableExpired].
  apply keeps_keys; simpl; rewrite Hst; auto.
Qed.

Lemma step_keeps URL uid_ok st st' :
  step URL uid_ok st st' ->
  store_ok st ->
  store_ok st'
  /\ ((forall s id, uid_ok s id -> fresh_uid s id) ->
      ids_unique st -> ids_unique st').
Proof.
  intros Hstep Hok. destruct Hstep.
  - destruct (keeps_ensureAutoDisableExpired now
                (mkState user (links st) (stored st))) as [H1 H2].
    split; [apply H1, Hok | intros _; apply H2].
  - destruct (keeps_shortenSubmit URL now later newId rnd url slug0 en ex st)
      as [H1 H2]. auto.
  - destruct (keeps_saveEditFromForm URL now id url slug0 ex en st); auto.
  - destruct (keeps_removeLink now id st); auto.
  - destruct (keeps_accessLink now later id st); auto.
  - destruct (keeps_toggleLink now later id st); auto.
  - destruct (keeps_ensureAutoDisableExpired now st); auto.
  - destruct (store_ok_loadData now st Hok); auto.
Qed.

Lemma store_ok_reachable URL uid_ok st :
  reachable URL uid_ok st ->
  store_ok st
  /\ ((forall s id, uid_ok s id -> fresh_uid s id) -> ids_unique st).
Proof.
  induction 1 as [|st st' _ [IH1 IH2] Hstep].
  - destruct store_ok_initial. auto.
  - destruct (step_keeps _ _ _ _ Hstep IH1) as [H1 H2]. auto.
Qed.

(** ** Random allocation *)

(** The [k]-th code unit of [randomSlug(len)] is the code unit of the
    alphabet at the index of the [k]-th draw. *)
Lemma randomSlug_get len rnd k :
  (k < len)%nat ->
  String.get k (randomSlug len rnd)
  = String.get (rnd k mod 36)%nat "abcdefghijklmnopqrstuvwxyz0123456789".
Proof.
  revert rnd k. induction len as [|n IH]; intros rnd k Hk; [lia|].
  cbn [randomSlug].
  destruct (alphabet_get _ (random_index_lt (rnd O))) as (c & Hc & _).
  rewrite Hc. destruct k as [|k]; cbn [String.get].
  - symmetry. exact Hc.
  - rewrite IH by lia. reflexivity.
Qed.

Lemma candidate_get rnd i k :
  (k < 6)%nat ->
  String.get k (candidate rnd i)
  = String.get (rnd (6 * i + k)%nat mod 36)%nat
      "abcdefghijklmnopqrstuvwxyz0123456789".
Proof. intros Hk. unfold candidate. rewrite randomSlug_get by exact Hk. reflexivity. Qed.

Lemma candidate_lower rnd i : toLowerCase (candidate rnd i) = candidate rnd i.
Proof.
  apply slug_chars_lower.
  destruct (candidate_shape rnd i) as [_ Ha].
  revert Ha. generalize (candidate rnd i). intros s.
  induction s as [|c t IH]; simpl; [reflexivity|].
  intros [Hc Ht]%andb_true_iff. unfold is_slug_char. rewrite Hc. auto.
Qed.

(** The loop passes over a candidate exactly when a link has it as slug. *)
Lemma free_slug_taken st rnd i :
  free_slug st (candidate rnd i) = false <-> taken st (candidate rnd i).
Proof.
  unfold free_slug, taken. rewrite candidate_not_reserved, andb_true_r.
  rewrite negb_false_iff. split.
  - intros (l & Hin & Hsl & _)%slugExists_true.
    rewrite candidate_lower in Hsl. eauto.
  - intros (l & Hin & Hsl).
    destruct (slugExists (candidate rnd i) None st) eqn:E; [reflexivity|].
    pose proof (slugExists_false _ _ _ E l Hin) as H.
    rewrite candidate_lower in H. specialize (H Hsl). discriminate.
Qed.

Lemma free_slug_not_taken st rnd i :
  free_slug st (candidate rnd i) = true <-> ~ taken st (candidate rnd i).
Proof.
  rewrite <- free_slug_taken. destruct (free_slug st (candidate rnd i)).
  - split; [discriminate | reflexivity].
  - split; [discriminate | intros H; destruct H; reflexivity].
Qed.

(** C5: when [createLink] is called with no requested slug (empty after
    sanitization), the [i]-th candidate is made of the draws [6i] to
    [6i + 5]: 6 code units, each the code unit of
    [abcdefghijklmnopqrstuvwxyz0123456789] at the index drawn, so it is over
    [[a-z0-9]] and is no reserved slug.  A created link carries the first of
    the first 30 candidates that no link of the collection has as slug: its
    slug has length 6, is over [[a-z0-9]], is not reserved and is the slug of
    no other link, and the link is stored in front of the collection and in
    the snapshot.  For a signed-in user with an accepted destination and
    expiry, the creation succeeds, with exactly that link, as soon as one of
    the 30 candidates is the slug of no link, and it fails with the
    allocation error when each of the 30 candidates is the slug of some
    link, which is the only way this error arises.  Every failure leaves the
    state unchanged. *)
Theorem random_slug_allocation
    (URL : string -> option Url) (now : Z) (newId : string) (rnd : nat -> nat)
    (url raw : string) (en : bool) (ex : DateValue) (st : State) :
  sanitizeSlug raw = "" ->
  let r := createLink URL now newId rnd url raw en ex st in
  (forall i,
     String.length (candidate rnd i) = 6%nat
     /\ all is_lower_alnum (candidate rnd i) = true
     /\ ~ In (candidate rnd i) RESERVED_SLUGS
     /\ forall k, (k < 6)%nat ->
          String.get k (candidate rnd i)
          = String.get (rnd (6 * i + k)%nat mod 36)%nat
              "abcdefghijklmnopqrstuvwxyz0123456789")
  /\ (forall link, snd r = Ok link ->
        String.length (slug link) = 6%nat
        /\ all is_lower_alnum (slug link) = true
        /\ ~ In (slug link) RESERVED_SLUGS
        /\ ~ taken st (slug link)
        /\ (exists i, (i < 30)%nat /\ slug link = candidate rnd i
              /\ forall j, (j < i)%nat -> taken st (candidate rnd j))
        /\ fst r = mkState (session st) (link :: links st) (link :: links st))
  /\ (forall e, snd r = Err e -> fst r = st)
  /\ (snd r = Err SlugAllocationExhausted ->
        forall i, (i < 30)%nat -> taken st (candidate rnd i))
  /\ (forall user dest expires,
        getCurrentUserId st = Some user ->
        normalizeUrl URL url = Ok dest ->
        readExpiry ex = Ok expires ->
        ((forall i, (i < 30)%nat -> taken st (candidate rnd i)) ->
           r = (st, Err SlugAllocationExhausted))
        /\ (forall i, (i < 30)%nat ->
              ~ taken st (candidate rnd i) ->
              (forall j, (j < i)%nat -> taken st (candidate rnd j)) ->
              let link := mkLink newId user dest (candidate rnd i) now expires
                            en 0 in
              r = (mkState (session st) (link :: links st) (link :: links st),
                   Ok link))
        /\ ((exists i, (i < 30)%nat /\ ~ taken st (candidate rnd i)) ->
              exists link, snd r = Ok link)).
Proof.
  intros Hraw r. subst r.
  assert (Hres : forall i, ~ In (candidate rnd i) RESERVED_SLUGS).
  { intros i Hin. apply reserved_spec in Hin.
    rewrite candidate_not_reserved in Hin. discriminate. }
  split.
  { intros i. destruct (candidate_shape rnd i) as [Hl Ha].
    repeat split; [exact Hl | exact Ha | apply Hres |].
    intros k Hk. apply candidate_get, Hk. }
  split; [|split; [intros e; apply createLink_error|split]].
  - intros link. unfold createLink.
    destruct (getCurrentUserId st); [|discriminate].
    destruct (normalizeUrl URL url); [|discriminate].
    destruct (readExpiry ex); [|discriminate].
    rewrite Hraw. cbn [is_empty negb].
    destruct (generateSlug_spec 30 rnd st)
      as [(i & Hi & -> & Hf & Hlt)|[-> _]]; [|discriminate].
    rewrite candidate_not_empty. cbn [snd fst]. intros [= <-]. cbn [slug].
    destruct (candidate_shape rnd i) as [Hl Ha].
    apply free_slug_not_taken in Hf.
    repeat split; try assumption; [apply Hres|].
    exists i. repeat split; [exact Hi|].
    intros j Hj. apply free_slug_taken, Hlt, Hj.
  - unfold createLink.
    destruct (getCurrentUserId st); [|discriminate].
    destruct (normalizeUrl URL url) as [dest|e] eqn:Hd;
      [|apply normalizeUrl_errors in Hd; intros [= ->];
        destruct Hd as [|[|]]; discriminate].
    destruct ex; cbn [readExpiry]; [|discriminate|].
    all: rewrite Hraw; cbn [is_empty negb].
    all: destruct (generateSlug_spec 30 rnd st)
      as [(i & Hi & -> & Hf & Hlt)|[-> Hnone]];
      [rewrite candidate_not_empty; discriminate
      | intros _ i Hi; apply free_slug_taken, Hnone, Hi].
  - intros user dest expires Hu Hd He.
    assert (Hfirst : forall i, (i < 30)%nat ->
              ~ taken st (candidate rnd i) ->
              (forall j, (j < i)%nat -> taken st (candidate rnd j)) ->
              createLink URL now newId rnd url raw en ex st
              = (mkState (session st)
                   (mkLink newId user dest (candidate rnd i) now expires en 0
                      :: links st)
                   (mkLink newId user dest (candidate rnd i) now expires en 0
                      :: links st),
                 Ok (mkLink newId user dest (candidate rnd i) now expires en 0))).
    { intros i Hi Hfree Hbefore. unfold createLink.
      rewrite Hu, Hd, He, Hraw. cbn [is_empty negb].
      destruct (generateSlug_spec 30 rnd st)
        as [(i' & Hi' & -> & Hf & Hlt)|[_ Hnone]].
      - assert (i' = i) as ->.
        { destruct (Nat.lt_trichotomy i' i) as [Hlt'|[Heq|Hgt]]; [|exact Heq|].
          - apply free_slug_not_taken in Hf. destruct Hf. apply Hbefore, Hlt'.
          - apply free_slug_not_taken in Hfree.
            rewrite (Hlt i Hgt) in Hfree. discriminate. }
        rewrite candidate_not_empty. reflexivity.
      - apply free_slug_not_taken in Hfree.
        rewrite (Hnone i Hi) in Hfree. discriminate. }
    split; [|split; [exact Hfirst|]].
    + intros Hnone. unfold createLink.
      rewrite Hu, Hd, He, Hraw. cbn [is_empty negb].
      destruct (generateSlug_spec 30 rnd st)
        as [(i & Hi & _ & Hf & _)|[-> _]]; [|reflexivity].
      apply free_slug_not_taken in Hf. destruct Hf. apply Hnone, Hi.
    + intros (i & Hi & Hfree).
      destruct (generateSlug_spec 30 rnd st)
        as [(i' & Hi' & _ & Hf & Hlt)|[_ Hnone]].
      * apply free_slug_not_taken in Hf.
        assert (Hb : forall j, (j < i')%nat -> taken st (candidate rnd j))
          by (intros j Hj; apply free_slug_taken, Hlt, Hj).
        rewrite (Hfirst i' Hi' Hf Hb). eauto.
      * apply free_slug_not_taken in Hfree.
        rewrite (Hnone i Hi) in Hfree. discriminate.
Qed.

(** ** Slug uniqueness *)

Lemma store_ok_lower st l :
  store_ok st -> l ∈ links st -> toLowerCase (slug l) = slug l.
Proof.
  intros (_ & Hch & _) Hin. unfold slug_chars in Hch.
  rewrite Forall_forall in Hch.
  apply slug_chars_lower, (Hch (key l)), list_elem_of_fmap. eauto.
Qed.

(** Under the invariant, links with different ids have slugs that differ
    regardless of case. *)
Lemma store_ok_distinct st l1 l2 :
  store_ok st -> l1 ∈ links st -> l2 ∈ links st ->
  link_id l1 <> link_id l2 -> ~ same_slug (slug l1) (slug l2).
Proof.
  intros Hok H1 H2 Hne. unfold same_slug.
  rewrite (store_ok_lower st l1), (store_ok_lower st l2) by assumption.
  destruct Hok as (_ & _ & Hdis).
  apply (Hdis (key l1) (key l2)); [apply list_elem_of_fmap; eauto..|exact Hne].
Qed.

Lemma store_ok_slugs_unique st : store_ok st -> ids_unique st -> slugs_unique st.
Proof.
  intros Hok Hids i j li lj Hi Hj Hne.
  apply (store_ok_distinct st); eauto using list_elem_of_lookup_2.
  intros Heq. apply Hne.
  apply (proj1 (NoDup_alt _) Hids i j (link_id li)).
  - rewrite !list_lookup_fmap, Hi. reflexivity.
  - rewrite !list_lookup_fmap, Hj. simpl. congruence.
Qed.

(** The check with an excluded id looks at the links of every other id. *)
Lemma slugExists_excluding s id st :
  slugExists s (Some id) st = true
  <-> exists l, l ∈ links st /\ link_id l <> id /\ slug l = toLowerCase s.
Proof.
  split.
  - intros (l & Hin & Hsl & Hne)%slugExists_true.
    exists l. repeat split; [assumption | congruence | assumption].
  - intros (l & Hin & Hne & Hsl).
    destruct (slugExists s (Some id) st) eqn:E; [reflexivity|].
    pose proof (slugExists_false _ _ _ E l Hin Hsl). congruence.
Qed.

(** C1: in every state reached from a fresh profile by the events of the
    core (sign in and out, create, edit, delete, access, toggle, listing,
    reload), any two links with different ids have slugs that differ
    regardless of case, whatever ids [uid()] returned; when [uid()] returns
    only ids that no link has, ids are not repeated and any two links at
    different places of the collection have slugs that differ regardless of
    case.  The check used on edit leaves out exactly the links with the id
    being edited, so a link's own slug passes it, while the check used on
    create, which leaves out nothing, finds that slug. *)
Theorem slug_uniqueness_invariant
    (URL : string -> option Url) (uid_ok : State -> string -> Prop)
    (st : State) :
  reachable URL uid_ok st ->
  (forall l1 l2, l1 ∈ links st -> l2 ∈ links st ->
     link_id l1 <> link_id l2 -> ~ same_slug (slug l1) (slug l2))
  /\ ((forall s id, uid_ok s id -> fresh_uid s id) ->
      ids_unique st /\ slugs_unique st)
  /\ (forall s id,
        slugExists s (Some id) st = true
        <-> exists l, l ∈ links st /\ link_id l <> id /\ slug l = toLowerCase s)
  /\ (forall l, l ∈ links st ->
        slugExists (slug l) (Some (link_id l)) st = false
        /\ slugExists (slug l) None st = true).
Proof.
  intros Hreach. destruct (store_ok_reachable _ _ _ Hreach) as [Hok Hids].
  split; [intros l1 l2; apply store_ok_distinct, Hok|].
  split; [intros Hfresh; auto using store_ok_slugs_unique|].
  split; [intros s id; apply slugExists_excluding|].
  intros l Hin. pose proof (store_ok_lower st l Hok Hin) as Hlow.
  split.
  - destruct (slugExists (slug l) (Some (link_id l)) st) eqn:E; [|reflexivity].
    apply slugExists_true in E as (l' & Hin' & Hsl' & Hne).
    destruct (store_ok_distinct st l' l Hok Hin' Hin); [congruence|].
    unfold same_slug. rewrite (store_ok_lower st l' Hok Hin'), Hsl'. reflexivity.
  - destruct (slugExists (slug l) None st) eqn:E; [reflexivity|].
    pose proof (slugExists_false _ _ _ E l Hin). rewrite Hlow in H.
    discriminate H. reflexivity.
Qed.

(** ** The examples *)

Lemma reachable_signed_in : reachable URL_table fresh_uid signed_in.
Proof.
  apply (reachable_step _ _ initial); [constructor|].
  apply (step_session URL_table fresh_uid initial 10 (Some "usr_1")).
Qed.

Lemma reachable_one_link : reachable URL_table fresh_uid one_link.
Proof.
  apply (reachable_step _ _ signed_in); [apply reachable_signed_in|].
  apply step_create. constructor.
Qed.

Lemma reachable_two_links : reachable URL_table fresh_uid two_links.
Proof.
  apply (reachable_step _ _ one_link); [apply reachable_one_link|].
  apply step_create. repeat constructor. discriminate.
Qed.

Example one_link_links :
  links one_link
  = [mkLink "lnk_1" "usr_1" "https://example.com/page" "promo" 20 (Millis 100)
       true 0].
Proof. reflexivity. Qed.

Example two_links_slugs : slug <$> links two_links = ["abcdef"; "promo"].
Proof. reflexivity. Qed.

Lemma slug_uniqueness_invariant_witness :
  slug <$> links two_links = ["abcdef"; "promo"] /\ slugs_unique two_links.
Proof.
  split; [reflexivity|].
  destruct (slug_uniqueness_invariant URL_table fresh_uid two_links
              reachable_two_links) as (_ & H & _).
  exact (proj2 (H (fun s id Hfresh => Hfresh))).
Defined.

(** Scenario: a second link with the requested slug [promo] is refused. *)
Example create_promo_twice :
  createLink URL_table 40 "lnk_3" counting "example.com/page" "PROMO" true NoDate
    two_links
  = (two_links, Err SlugTaken).
Proof. reflexivity. Qed.

(** Scenario: the requested slug [ab] is too short. *)
Example create_short_slug :
  snd (createLink URL_table 40 "lnk_3" counting "example.com/page" "ab" true NoDate
         two_links)
  = Err SlugLengthInvalid.
Proof. reflexivity. Qed.

(** Editing a link and keeping its slug is not refused as taken. *)
Example edit_keeps_slug :
  snd (saveEditFromForm URL_table 40 "lnk_1" "example.com/page" "promo" NoDate true
         two_links)
  = Ok tt.
Proof. reflexivity. Qed.

Lemma access_increments_clicks_witness :
  findLinkById "lnk_1" one_link
  = Some (mkLink "lnk_1" "usr_1" "https://example.com/page" "promo" 20
            (Millis 100) true 0)
  /\ snd (accessLink 60 61 "lnk_1" one_link) = Ok "https://example.com/page"
  /\ findLinkById "lnk_1" (fst (accessLink 60 61 "lnk_1" one_link))
     = Some (mkLink "lnk_1" "usr_1" "https://example.com/page" "promo" 20
               (Millis 100) true 1)
  /\ findLinkById "lnk_1" (fst (accessLink 100 101 "lnk_1" one_link))
     = Some (mkLink "lnk_1" "usr_1" "https://example.com/page" "promo" 20
               (Millis 100) false 1).
Proof.
  pose proof (access_increments_clicks 60 61 "lnk_1" one_link
                (mkLink "lnk_1" "usr_1" "https://example.com/page" "promo" 20
                   (Millis 100) true 0) eq_refl eq_refl eq_refl)
    as (H1 & _ & H3 & _).
  pose proof (access_increments_clicks 100 101 "lnk_1" one_link
                (mkLink "lnk_1" "usr_1" "https://example.com/page" "promo" 20
                   (Millis 100) true 0) eq_refl eq_refl eq_refl)
    as (_ & _ & _ & H4 & _).
  split; [reflexivity|]. split; [exact H1|].
  split; [exact (H3 eq_refl) | exact (H4 eq_refl)].
Defined.

(** C2 (as stated) fails.  The link [/promo], created to expire at instant
    100, is Active when the access checks it at instant 100; the sweep of the
    listing that follows the count reads the clock at instant 101: the access
    opens the destination and counts, and the stored link is disabled, so
    [enabled] has changed too.  And on a link counted [2^53] times an access
    succeeds and leaves the count as it is. *)
Lemma access_may_disable :
  reachable URL_table fresh_uid one_link
  /\ findLinkById "lnk_1" one_link
     = Some (mkLink "lnk_1" "usr_1" "https://example.com/page" "promo" 20
               (Millis 100) true 0)
  /\ computeStatus 100
       (mkLink "lnk_1" "usr_1" "https://example.com/page" "promo" 20
          (Millis 100) true 0) = Active
  /\ snd (accessLink 100 101 "lnk_1" one_link) = Ok "https://example.com/page"
  /\ findLinkById "lnk_1" (fst (accessLink 100 101 "lnk_1" one_link))
     = Some (mkLink "lnk_1" "usr_1" "https://example.com/page" "promo" 20
               (Millis 100) false 1)
  /\ findLinkById "lnk_8" worn_profile = Some worn_link
  /\ computeStatus 50 worn_link = Active
  /\ snd (accessLink 50 50 "lnk_8" worn_profile) = Ok "https://example.com/page"
  /\ findLinkById "lnk_8" (fst (accessLink 50 50 "lnk_8" worn_profile))
     = Some worn_link.
Proof. split; [apply reachable_one_link | repeat split; reflexivity]. Qed.

(** C4 (as stated) fails: the link [/promo], created at instant 20 to
    expire at instant 100 and still enabled, is accessed at instant 200; the
    access shows LinkExpired and the stored record is still enabled, in
    memory and in the snapshot. *)
Lemma access_does_not_sweep :
  reachable URL_table fresh_uid one_link
  /\ findLinkById "lnk_1" one_link
  = Some (mkLink "lnk_1" "usr_1" "https://example.com/page" "promo" 20 (Millis 100)
            true 0)
  /\ snd (accessLink 200 200 "lnk_1" one_link) = Err LinkExpired
  /\ enabled <$> findLinkById "lnk_1" (fst (accessLink 200 200 "lnk_1" one_link))
     = Some true
  /\ enabled <$> List.head (stored (fst (accessLink 200 200 "lnk_1" one_link)))
     = Some true.
Proof. split; [apply reachable_one_link | repeat split; reflexivity]. Qed.

Lemma access_of_expired_leaves_enabled_witness :
  accessLink 200 200 "lnk_1" one_link = (one_link, Err LinkExpired)
  /\ enabled <$> findLinkById "lnk_1" (renderLinks 200 one_link) = Some false.
Proof.
  pose proof (access_of_expired_leaves_enabled 200 200 "lnk_1" one_link
                (mkLink "lnk_1" "usr_1" "https://example.com/page" "promo" 20
                   (Millis 100) true 0) 100 eq_refl eq_refl eq_refl eq_refl)
    as (H1 & _ & H3 & _).
  split; [exact H1|]. rewrite H1 in H3. cbn [fst] in H3. rewrite H3. reflexivity.
Defined.

Lemma random_slug_allocation_witness :
  sanitizeSlug "!!!" = ""
  /\ slug <$> links two_links = ["abcdef"; "promo"]
  /\ candidate counting 0 = "abcdef"
  /\ candidate counting 1 = "ghijkl"
  /\ snd (createLink URL_table 40 "lnk_3" counting "example.com/page" "!!!" true
            NoDate two_links)
     = Ok (mkLink "lnk_3" "usr_1" "https://example.com/page" "ghijkl" 40 NoDate
             true 0)
  /\ slug <$> links (fst (createLink URL_table 40 "lnk_3" counting
                            "example.com/page" "!!!" true NoDate two_links))
     = ["ghijkl"; "abcdef"; "promo"].
Proof.
  pose proof (random_slug_allocation URL_table 40 "lnk_3" counting
                "example.com/page" "!!!" true NoDate two_links eq_refl)
    as (_ & _ & _ & _ & H).
  destruct (H "usr_1" "https://example.com/page" NoDate eq_refl eq_refl eq_refl)
    as (_ & H1 & _).
  assert (Hfree : ~ taken two_links (candidate counting 1)).
  { intros (l & Hin & Hsl). vm_compute in Hin.
    apply elem_of_cons in Hin as [->|Hin]; [discriminate Hsl|].
    apply elem_of_cons in Hin as [->|Hin]; [discriminate Hsl|].
    apply elem_of_nil in Hin. exact Hin. }
  assert (Hbefore : forall j, (j < 1)%nat -> taken two_links (candidate counting j)).
  { intros j Hj. assert (j = O) as -> by lia.
    exists (mkLink "lnk_2" "usr_1" "https://example.com/page" "abcdef" 30 NoDate
              true 0).
    split; [apply list_elem_of_In; left; reflexivity | reflexivity]. }
  specialize (H1 1%nat ltac:(lia) Hfree Hbefore). cbv zeta in H1.
  repeat split; try reflexivity; rewrite H1; reflexivity.
Defined.

(** When every candidate is taken the allocation gives up after 30
    attempts. *)
Example allocation_exhausted :
  let taken :=
    fst (createLink URL_table 30 "lnk_2" stuck "example.com/page" "" true NoDate
           one_link) in
  slug <$> links taken = ["aaaaaa"; "promo"]
  /\ createLink URL_table 40 "lnk_3" stuck "example.com/page" "" true NoDate taken
     = (taken, Err SlugAllocationExhausted).
Proof. split; reflexivity. Qed.

Lemma invalid_expiry_never_expires_witness :
  expiresAt odd_link = InvalidDate
  /\ computeStatus 1000000 odd_link = Active
  /\ snd (accessLink 1000000 1000000 "lnk_9" odd_profile) = Ok "https://example.com/page".
Proof.
  pose proof (invalid_expiry_never_expires 1000000 odd_link eq_refl)
    as (_ & H2 & _ & H4).
  split; [reflexivity|]. split; [exact H2|].
  exact (H4 1000000 "lnk_9" odd_profile eq_refl eq_refl).
Defined.

Example access_failures :
  accessLink 200 200 "lnk_1" one_link = (one_link, Err LinkExpired)
  /\ accessLink 200 200 "lnk_7" one_link = (one_link, Err LinkNotFound).
Proof. split; reflexivity. Qed.

(** The assumption on [uid()] is needed for links at different places: were
    [uid()] to return the id of [/promo] again, the edit of that id would
    leave both links of the id with the slug [promo]. *)
Example repeated_id_repeats_slug :
  let twice :=
    fst (createLink URL_table 30 "lnk_1" counting "example.com/page" "sale" true
           NoDate one_link) in
  key <$> links twice = [("lnk_1", "sale"); ("lnk_1", "promo")]
  /\ key <$> links (fst (saveEditFromForm URL_table 40 "lnk_1" "example.com/page"
                           "promo" NoDate true twice))
     = [("lnk_1", "promo"); ("lnk_1", "promo")].
Proof. split; reflexivity. Qed.

(** * More of [main.js] *)

(** ** Concatenation *)

Lemma append_cons x (t b : string) : String x t +:+ b = String x (t +:+ b).
Proof. reflexivity. Qed.

Lemma append_empty_l (b : string) : "" +:+ b = b.
Proof. reflexivity. Qed.

Ltac string_induction a :=
  induction a as [|? ? IH];
  rewrite ?append_cons, ?append_empty_l; simpl;
  rewrite ?append_cons, ?append_empty_l.

Lemma append_assoc (a b c : string) : (a +:+ b) +:+ c = a +:+ (b +:+ c).
Proof. string_induction a; [reflexivity|]. f_equal. exact IH. Qed.

Lemma append_empty_r (a : string) : a +:+ "" = a.
Proof. string_induction a; [reflexivity|]. f_equal. exact IH. Qed.

Lemma length_append (a b : string) :
  String.length (a +:+ b) = (String.length a + String.length b)%nat.
Proof. string_induction a; [reflexivity|]. f_equal. exact IH. Qed.

Lemma prefix_empty (b : string) : String.prefix "" b = true.
Proof. destruct b; reflexivity. Qed.

Lemma prefix_append (a b : string) : String.prefix a (a +:+ b) = true.
Proof.
  string_induction a; [apply prefix_empty|].
  destruct (ascii_dec _ _); [exact IH | contradiction].
Qed.

Lemma all_append p (a b : string) : all p (a +:+ b) = all p a && all p b.
Proof.
  string_induction a; [reflexivity|].
  rewrite IH. apply andb_assoc.
Qed.

Lemma map_append f (a b : string) : map f (a +:+ b) = map f a +:+ map f b.
Proof. string_induction a; [reflexivity|]. f_equal. exact IH. Qed.

(** ** [escapeHtml] *)

Lemma replaceAll_app c rep a b :
  replaceAll c rep (a +:+ b) = replaceAll c rep a +:+ replaceAll c rep b.
Proof.
  string_induction a; [reflexivity|].
  match goal with |- context [Ascii.eqb ?x c] => destruct (Ascii.eqb x c) end;
    rewrite IH, ?append_cons; [|reflexivity].
  symmetry. apply append_assoc.
Qed.

Lemma replaceAll_absent c rep s :
  all (fun a => negb (Ascii.eqb a c)) s = true -> replaceAll c rep s = s.
Proof.
  induction s as [|x t IH]; simpl; [reflexivity|].
  intros [Hx Ht]%andb_true_iff. apply negb_true_iff in Hx.
  rewrite Hx, (IH Ht). reflexivity.
Qed.

Lemma escape_char_one c : escapeHtml (String c "") = escape_char c.
Proof. each_code_unit c. Qed.

Lemma escapeHtml_app a b : escapeHtml (a +:+ b) = escapeHtml a +:+ escapeHtml b.
Proof. unfold escapeHtml. rewrite !replaceAll_app. reflexivity. Qed.

(** The five passes amount to one pass that writes [escape_char] for each
    code unit. *)
Lemma escapeHtml_cons c t : escapeHtml (String c t) = escape_char c +:+ escapeHtml t.
Proof.
  change (String c t) with (String c "" +:+ t).
  rewrite escapeHtml_app, escape_char_one. reflexivity.
Qed.

(** the text written for a given code unit, put in front of the rest *)
Ltac escape_char_cases c :=
  destruct c as [[|] [|] [|] [|] [|] [|] [|] [|]];
  match goal with
  | |- context [escape_char ?x] =>
      let v := eval vm_compute in (escape_char x) in
      change (escape_char x) with v
  end;
  rewrite ?append_cons, ?append_empty_l.

Lemma escape_char_markup c : all (fun a => negb (is_markup a)) (escape_char c) = true.
Proof. each_code_unit c. Qed.

Lemma escape_char_entities c t :
  entities_only t = true -> entities_only (escape_char c +:+ t) = true.
Proof.
  intros Ht. escape_char_cases c; simpl; rewrite ?prefix_empty, ?Ht; reflexivity.
Qed.

(** X1: the text [escapeHtml] returns holds no [<], [>], double quote or
    apostrophe, and every [&] in it opens one of the entities [&amp;],
    [&lt;], [&gt;], [&quot;], [&#039;]. *)
Theorem escapeHtml_no_markup (str : string) :
  all (fun a => negb (is_markup a)) (escapeHtml str) = true
  /\ entities_only (escapeHtml str) = true.
Proof.
  induction str as [|c t [IH1 IH2]]; [split; reflexivity|].
  rewrite escapeHtml_cons. split.
  - rewrite all_append, escape_char_markup, IH1. reflexivity.
  - apply escape_char_entities, IH2.
Qed.

Lemma unescape_escape_char c t :
  unescapeHtml 0 (escape_char c +:+ escapeHtml t)
  = String c (unescapeHtml 0 (escapeHtml t)).
Proof.
  escape_char_cases c; simpl; rewrite ?prefix_empty; reflexivity.
Qed.

Lemma unescapeHtml_escapeHtml str : unescapeHtml 0 (escapeHtml str) = str.
Proof.
  induction str as [|c t IH]; [reflexivity|].
  rewrite escapeHtml_cons, unescape_escape_char, IH. reflexivity.
Qed.

(** X2: [escapeHtml] loses nothing: reading the entities back returns the
    text that was escaped, so two different texts are never escaped to the
    same one. *)
Theorem escapeHtml_injective (a b : string) :
  unescapeHtml 0 (escapeHtml a) = a
  /\ (escapeHtml a = escapeHtml b -> a = b).
Proof.
  split; [apply unescapeHtml_escapeHtml|].
  intros H. rewrite <- (unescapeHtml_escapeHtml a), H.
  apply unescapeHtml_escapeHtml.
Qed.

Lemma escapeHtml_plain str :
  all (fun a => negb (is_html_special a)) str = true -> escapeHtml str = str.
Proof.
  induction str as [|c t IH]; [reflexivity|]. simpl all.
  intros [Hc Ht]%andb_true_iff. rewrite escapeHtml_cons, (IH Ht).
  revert Hc. each_code_unit c.
Qed.

Lemma escape_char_length c :
  (String.length (escape_char c)
   = if is_html_special c then String.length (escape_char c) else 1)%nat
  /\ (1 <= String.length (escape_char c))%nat
  /\ (is_html_special c = true -> 1 < String.length (escape_char c))%nat.
Proof.
  destruct c as [[|] [|] [|] [|] [|] [|] [|] [|]]; vm_compute;
    repeat split; try lia; discriminate.
Qed.

Lemma escapeHtml_length str :
  (String.length str <= String.length (escapeHtml str))%nat
  /\ (all (fun c => negb (is_html_special c)) str = false ->
      String.length str < String.length (escapeHtml str))%nat.
Proof.
  induction str as [|c t [IH1 IH2]]; [split; [reflexivity | discriminate]|].
  rewrite escapeHtml_cons, length_append. simpl String.length. simpl all.
  destruct (escape_char_length c) as (_ & H1 & H2).
  split; [lia|].
  destruct (is_html_special c) eqn:E; simpl.
  - intros _. specialize (H2 eq_refl). lia.
  - intros H. specialize (IH2 H). lia.
Qed.

(** X3: [escapeHtml] works piece by piece: the escape of a concatenation is
    the concatenation of the escapes; it never shortens a text; and it
    returns a text unchanged exactly when the text has no [&], [<], [>],
    double quote or apostrophe. *)
Theorem escapeHtml_pieces (a b : string) :
  escapeHtml (a +:+ b) = escapeHtml a +:+ escapeHtml b
  /\ (String.length a <= String.length (escapeHtml a))%nat
  /\ (escapeHtml a = a
      <-> all (fun c => negb (is_html_special c)) a = true).
Proof.
  split; [apply escapeHtml_app|].
  split; [apply escapeHtml_length|].
  split; [|apply escapeHtml_plain].
  intros H. destruct (all _ a) eqn:E; [reflexivity|].
  apply escapeHtml_length in E. rewrite H in E. lia.
Qed.

(** ** The sweep *)

Lemma State_eq st st' :
  session st = session st' -> links st = links st' -> stored st = stored st' ->
  st = st'.
Proof. destruct st, st'; simpl; intros -> -> ->; reflexivity. Qed.

(** [ensureAutoDisableExpired] in one expression. *)
Lemma ensureAutoDisableExpired_eq now st :
  ensureAutoDisableExpired now st
  = mkState (session st) (List.map (autoDisable1 now) (links st))
      (if existsb (fun l => enabled l && isExpired now l) (links st)
       then List.map (autoDisable1 now) (links st)
       else stored st).
Proof.
  unfold ensureAutoDisableExpired.
  rewrite <- autoDisable_changed, <- autoDisable_map.
  destruct (autoDisable now (links st)) as [ls []]; reflexivity.
Qed.

Lemma autoDisable1_later now1 now2 l :
  now1 <= now2 -> autoDisable1 now2 (autoDisable1 now1 l) = autoDisable1 now2 l.
Proof.
  intros Hle. unfold autoDisable1 at 2 3.
  destruct (enabled l && isExpired now1 l) eqn:E1; [|reflexivity].
  assert (E2 : enabled l && isExpired now2 l = true).
  { apply andb_true_iff in E1 as [He Hx]. rewrite He. simpl.
    unfold isExpired in *. destruct (expiresAt l); try discriminate.
    apply Z.ltb_lt in Hx. apply Z.ltb_lt. lia. }
  rewrite E2. reflexivity.
Qed.

Lemma map_autoDisable1_later now1 now2 ls :
  now1 <= now2 ->
  List.map (autoDisable1 now2) (List.map (autoDisable1 now1) ls)
  = List.map (autoDisable1 now2) ls.
Proof.
  intros Hle. induction ls as [|l t IH]; simpl; [reflexivity|].
  rewrite autoDisable1_later, IH by assumption. reflexivity.
Qed.

Lemma map_autoDisable1_nothing now ls :
  existsb (fun l => enabled l && isExpired now l) ls = false ->
  List.map (autoDisable1 now) ls = ls.
Proof.
  induction ls as [|l t IH]; simpl; [reflexivity|].
  intros [Hl Ht]%orb_false_iff. unfold autoDisable1 at 1.
  rewrite Hl, (IH Ht). reflexivity.
Qed.

Lemma expired_later now1 now2 ls :
  now1 <= now2 ->
  existsb (fun l => enabled l && isExpired now1 l) ls = true ->
  existsb (fun l => enabled l && isExpired now2 l) ls = true.
Proof.
  intros Hle. rewrite !existsb_exists. intros (l & Hin & H).
  exists l. split; [exact Hin|].
  apply andb_true_iff in H as [He Hx]. rewrite He. simpl.
  unfold isExpired in *. destruct (expiresAt l); try discriminate.
  apply Z.ltb_lt in Hx. apply Z.ltb_lt. lia.
Qed.


(** X5: sweeping at an instant and then at a later one gives the state
    (links and snapshot) that sweeping at the later one gives; so a second
    sweep at the same instant changes nothing. *)
Theorem sweep_then_later_sweep (now1 now2 : Z) (st : State) :
  now1 <= now2 ->
  ensureAutoDisableExpired now2 (ensureAutoDisableExpired now1 st)
  = ensureAutoDisableExpired now2 st
  /\ ensureAutoDisableExpired now1 (ensureAutoDisableExpired now1 st)
     = ensureAutoDisableExpired now1 st.
Proof.
  assert (H : forall n1 n2, n1 <= n2 ->
            ensureAutoDisableExpired n2 (ensureAutoDisableExpired n1 st)
            = ensureAutoDisableExpired n2 st).
  { intros n1 n2 Hle. rewrite !ensureAutoDisableExpired_eq. simpl.
    rewrite map_autoDisable1_later by assumption.
    apply State_eq; simpl; [reflexivity..|].
    destruct (existsb (fun l => enabled l && isExpired n1 l) (links st)) eqn:E1.
    - rewrite (expired_later n1 n2 _ Hle E1).
      destruct (existsb _ (List.map (autoDisable1 n1) (links st))) eqn:E2;
        [reflexivity|].
      rewrite <- (map_autoDisable1_later n1 n2) by assumption.
      symmetry. apply map_autoDisable1_nothing, E2.
    - rewrite (map_autoDisable1_nothing n1 _ E1). reflexivity. }
  intros Hle. split; [apply H, Hle | apply H; lia].
Qed.

Lemma sweep_then_later_sweep_witness :
  ensureAutoDisableExpired 200 (ensureAutoDisableExpired 50 one_link)
  = ensureAutoDisableExpired 200 one_link
  /\ enabled <$> links (ensureAutoDisableExpired 200 one_link) = [false].
Proof.
  split; [|reflexivity].
  apply (sweep_then_later_sweep 50 200 one_link). lia.
Defined.

(** X6: when no link is enabled and expired, [ensureAutoDisableExpired]
    returns the state it was given, snapshot included; when one is, the
    snapshot is rewritten with the swept links. *)
Theorem sweep_nothing_expired (now : Z) (st : State) :
  (existsb (fun l => enabled l && isExpired now l) (links st) = false ->
   ensureAutoDisableExpired now st = st)
  /\ (existsb (fun l => enabled l && isExpired now l) (links st) = true ->
      stored (ensureAutoDisableExpired now st)
      = links (ensureAutoDisableExpired now st)).
Proof.
  rewrite ensureAutoDisableExpired_eq. split; intros H; rewrite H.
  - rewrite (map_autoDisable1_nothing _ _ H). destruct st; reflexivity.
  - reflexivity.
Qed.

(** ** [findLinkById], [updateLink], [deleteLink] *)

Lemma list_find_absent id ls :
  find (fun l => bool_decide (link_id l = id)) ls = None ->
  list_find (fun l => link_id l = id) ls = None.
Proof.
  induction ls as [|x t IH]; simpl; [reflexivity|].
  unfold list_find; fold (list_find (fun l => link_id l = id) t).
  rewrite decide_bool_decide.
  destruct (bool_decide (link_id x = id)); [discriminate|].
  intros H. rewrite (IH H). reflexivity.
Qed.

Lemma find_insert_other id' ls idx l x :
  ls !! idx = Some l -> link_id x = link_id l -> id' <> link_id l ->
  find (fun l => bool_decide (link_id l = id')) (<[idx := x]> ls)
  = find (fun l => bool_decide (link_id l = id')) ls.
Proof.
  revert idx. induction ls as [|y t IH]; intros [|idx] Hl Hx Hne;
    simpl in *; try discriminate.
  - injection Hl as ->. rewrite Hx.
    rewrite !bool_decide_eq_false_2 by congruence. reflexivity.
  - rewrite (IH idx Hl Hx Hne). reflexivity.
Qed.

Lemma find_filter_other id id' ls :
  id' <> id ->
  find (fun l => bool_decide (link_id l = id'))
    (List.filter (fun l => bool_decide (link_id l <> id)) ls)
  = find (fun l => bool_decide (link_id l = id')) ls.
Proof.
  intros Hne. induction ls as [|x t IH]; simpl; [reflexivity|].
  case_bool_decide as Hx; simpl; rewrite IH; [reflexivity|].
  rewrite bool_decide_eq_false_2; [reflexivity|]. congruence.
Qed.

Lemma find_filter_same id ls :
  find (fun l => bool_decide (link_id l = id))
    (List.filter (fun l => bool_decide (link_id l <> id)) ls) = None.
Proof.
  induction ls as [|x t IH]; simpl; [reflexivity|].
  case_bool_decide as Hx; simpl; [|exact IH].
  rewrite bool_decide_eq_false_2 by assumption. exact IH.
Qed.

Lemma filter_all_absent id ls :
  find (fun l => bool_decide (link_id l = id)) ls = None ->
  List.filter (fun l => bool_decide (link_id l <> id)) ls = ls.
Proof.
  induction ls as [|x t IH]; simpl; [reflexivity|].
  case_bool_decide as Hx; [discriminate|]. intros H.
  rewrite bool_decide_eq_true_2 by assumption. rewrite (IH H). reflexivity.
Qed.

Lemma filter_shorter_present id ls l :
  find (fun l => bool_decide (link_id l = id)) ls = Some l ->
  (length (List.filter (fun l => bool_decide (link_id l <> id)) ls)
   < length ls)%nat.
Proof.
  induction ls as [|x t IH]; simpl; [discriminate|].
  case_bool_decide as Hx.
  - intros _. rewrite bool_decide_eq_false_2 by auto.
    pose proof (List.filter_length_le
                  (fun l => bool_decide (link_id l <> id)) t). lia.
  - intros H. rewrite bool_decide_eq_true_2 by assumption. simpl.
    specialize (IH H). lia.
Qed.

(** X7: [updateLink] on an id that no link has returns false and leaves the
    state as it is; on an id of the collection it returns true, the first
    link of that id becomes the link merged with the patch, the collection
    keeps its length, the snapshot is rewritten, and what [findLinkById]
    returns for every other id is unchanged. *)
Theorem updateLink_contract (id : string) (p : Patch) (st : State) :
  let st' := fst (updateLink id p st) in
  (findLinkById id st = None -> updateLink id p st = (st, false))
  /\ (forall l, findLinkById id st = Some l ->
        snd (updateLink id p st) = true
        /\ findLinkById id st' = Some (merge l p)
        /\ stored st' = links st'
        /\ length (links st') = length (links st))
  /\ (forall id', id' <> id -> findLinkById id' st' = findLinkById id' st)
  /\ session st' = session st.
Proof.
  intros st'. subst st'. split; [|split; [|split]].
  - intros H. unfold updateLink. unfold findLinkById in H.
    rewrite (list_find_absent _ _ H). reflexivity.
  - intros l H. destruct (updateLink_found id p st l H) as (idx & _ & -> & Hnew).
    simpl. repeat split; [exact Hnew|]. apply length_insert.
  - intros id' Hne.
    destruct (updateLink_links id p st) as [->|(idx & l & Hl & Hid & ->)];
      [reflexivity|].
    unfold findLinkById. simpl.
    apply (find_insert_other id' _ idx l); [exact Hl | reflexivity | congruence].
  - destruct (updateLink_links id p st) as [->|(idx & l & Hl & Hid & ->)];
      reflexivity.
Qed.

(** X8: after [deleteLink(id)] no link of the collection has that id, and
    what [findLinkById] returns for every other id is unchanged; it returns
    false, and the state it was given, exactly when the id was not there,
    and otherwise rewrites the snapshot. *)
Theorem deleteLink_contract (id : string) (st : State) :
  let st' := fst (deleteLink id st) in
  findLinkById id st' = None
  /\ Forall (fun l => link_id l <> id) (links st')
  /\ (forall id', id' <> id -> findLinkById id' st' = findLinkById id' st)
  /\ (findLinkById id st = None -> deleteLink id st = (st, false))
  /\ (forall l, findLinkById id st = Some l ->
        snd (deleteLink id st) = true /\ stored st' = links st'
        /\ (length (links st') < length (links st))%nat).
Proof.
  intros st'. subst st'.
  assert (Hlinks : links (fst (deleteLink id st))
                   = List.filter (fun l => bool_decide (link_id l <> id)) (links st)).
  { unfold deleteLink. destruct (_ =? _)%nat; reflexivity. }
  split; [unfold findLinkById; rewrite Hlinks; apply find_filter_same|].
  split.
  { rewrite Hlinks. apply Forall_forall. intros l Hin.
    apply list_elem_of_In, filter_In in Hin as [_ H].
    apply bool_decide_eq_true in H. exact H. }
  split; [intros id' Hne; unfold findLinkById; rewrite Hlinks;
          apply find_filter_other, Hne|].
  split.
  - intros H. unfold deleteLink. cbn [links set_links].
    unfold findLinkById in H. rewrite (filter_all_absent _ _ H).
    rewrite Nat.eqb_refl. destruct st; reflexivity.
  - intros l H. unfold findLinkById in H.
    pose proof (filter_shorter_present _ _ _ H) as Hlt.
    unfold deleteLink. cbn [links set_links].
    destruct (Nat.eqb_spec
                (length (List.filter (fun l => bool_decide (link_id l <> id)) (links st)))
                (length (links st))) as [E|_]; [lia|].
    simpl. auto.
Qed.

(** ** The toggle *)

Lemma with_enabled_same l : with_enabled (enabled l) l = l.
Proof. destruct l; reflexivity. Qed.

Lemma toggleLink_flips now later id st l :
  findLinkById id st = Some l -> isExpired now l = false ->
  toggleLink now later id st
  = (renderLinks later
       (fst (updateLink id (mkPatch None None None (Some (negb (enabled l))) None) st)),
     Ok tt)
  /\ findLinkById id (fst (toggleLink now later id st))
     = Some (autoDisable1 later (with_enabled (negb (enabled l)) l)).
Proof.
  intros Hfind Hexp.
  assert (E : toggleLink now later id st
              = (renderLinks later
                   (fst (updateLink id
                           (mkPatch None None None (Some (negb (enabled l))) None) st)),
                 Ok tt)).
  { unfold toggleLink. rewrite Hfind, Hexp. reflexivity. }
  split; [exact E|]. rewrite E. cbn [fst].
  destruct (updateLink_found id (mkPatch None None None (Some (negb (enabled l))) None)
              st l Hfind) as (_ & _ & _ & Hnew).
  rewrite findLinkById_renderLinks, Hnew. reflexivity.
Qed.

(** What the sweep at [later] leaves of a link whose [enabled] was just
    inverted. *)
Lemma autoDisable1_toggled later l :
  autoDisable1 later (with_enabled (negb (enabled l)) l)
  = if negb (enabled l) && isExpired later l then l
    else with_enabled (negb (enabled l)) l.
Proof.
  unfold autoDisable1.
  change (isExpired later (with_enabled (negb (enabled l)) l))
    with (isExpired later l).
  change (enabled (with_enabled (negb (enabled l)) l)) with (negb (enabled l)).
  destruct (enabled l) eqn:He, (isExpired later l); simpl; try reflexivity.
  destruct l; simpl in *; subst; reflexivity.
Qed.

(** X9: the toggle reads the clock in [isExpired], at [now], and in the
    sweep of the listing that follows, at [later].  The toggle of a stored
    link that has expired at [now] is refused with LinkExpired and changes
    nothing.  Otherwise it inverts [enabled], nothing else of the link, and
    the sweep then disables a link that is enabled and has expired at
    [later]: disabling always takes effect, enabling takes effect when the
    link has not expired at [later], and enabling a link that has expired at
    [later] leaves the link as it was.  When the link has not expired at any
    reading of the clock, a second toggle gives the link back. *)
Theorem toggleLink_contract
    (now later : Z) (id : string) (st : State) (l : Link) :
  findLinkById id st = Some l ->
  (isExpired now l = true ->
     toggleLink now later id st = (st, Err LinkExpired))
  /\ (isExpired now l = false ->
      let st' := fst (toggleLink now later id st) in
      snd (toggleLink now later id st) = Ok tt
      /\ findLinkById id st'
         = Some (autoDisable1 later (with_enabled (negb (enabled l)) l))
      /\ (enabled l = true ->
            findLinkById id st' = Some (with_enabled false l))
      /\ (enabled l = false -> isExpired later l = false ->
            findLinkById id st' = Some (with_enabled true l))
      /\ (enabled l = false -> isExpired later l = true ->
            findLinkById id st' = Some l)
      /\ (isExpired later l = false ->
            forall now2 later2,
              isExpired now2 l = false -> isExpired later2 l = false ->
              findLinkById id (fst (toggleLink now2 later2 id st')) = Some l)).
Proof.
  intros Hfind. split.
  - intros Hexp. unfold toggleLink. rewrite Hfind, Hexp. reflexivity.
  - intros Hexp st'. subst st'.
    destruct (toggleLink_flips now later id st l Hfind Hexp) as [E H1].
    rewrite autoDisable1_toggled in H1.
    split; [rewrite E; reflexivity|].
    split; [rewrite autoDisable1_toggled; exact H1|].
    split; [intros He; rewrite H1, He; reflexivity|].
    split; [intros He Hx; rewrite H1, He, Hx; reflexivity|].
    split; [intros He Hx; rewrite H1, He, Hx; reflexivity|].
    intros Hx now2 later2 Hx1 Hx2.
    rewrite Hx, andb_false_r in H1.
    destruct (toggleLink_flips now2 later2 id _ _ H1 Hx1) as [_ H2].
    rewrite H2, autoDisable1_toggled.
    change (isExpired later2 (with_enabled (negb (enabled l)) l))
      with (isExpired later2 l).
    rewrite Hx2, andb_false_r. simpl. rewrite negb_involutive.
    f_equal. destruct l; reflexivity.
Qed.

Lemma toggleLink_contract_witness :
  toggleLink 200 200 "lnk_1" one_link = (one_link, Err LinkExpired)
  /\ enabled <$> findLinkById "lnk_1" (fst (toggleLink 60 61 "lnk_1" one_link))
     = Some false
  /\ findLinkById "lnk_1"
       (fst (toggleLink 100 101 "lnk_1" (fst (toggleLink 60 61 "lnk_1" one_link))))
     = Some (mkLink "lnk_1" "usr_1" "https://example.com/page" "promo" 20
               (Millis 100) false 0).
Proof.
  destruct (toggleLink_contract 200 200 "lnk_1" one_link
              (mkLink "lnk_1" "usr_1" "https://example.com/page" "promo" 20
                 (Millis 100) true 0) eq_refl) as [H1 _].
  destruct (toggleLink_contract 60 61 "lnk_1" one_link
              (mkLink "lnk_1" "usr_1" "https://example.com/page" "promo" 20
                 (Millis 100) true 0) eq_refl) as [_ H2].
  destruct (toggleLink_contract 100 101 "lnk_1"
              (fst (toggleLink 60 61 "lnk_1" one_link))
              (mkLink "lnk_1" "usr_1" "https://example.com/page" "promo" 20
                 (Millis 100) false 0) eq_refl) as [_ H3].
  split; [exact (H1 eq_refl)|].
  destruct (H2 eq_refl) as (_ & _ & H2' & _).
  destruct (H3 eq_refl) as (_ & _ & _ & _ & H3' & _).
  split; [rewrite (H2' eq_refl); reflexivity | exact (H3' eq_refl eq_refl)].
Defined.

(** ** What [isSlugValid] accepts *)

Lemma alnum_and_slug_char c : is_slug_char c && is_lower_alnum c = is_lower_alnum c.
Proof. unfold is_slug_char. destruct (is_lower_alnum c), (is_sep c); reflexivity. Qed.

Lemma alnum_not_sep c : is_lower_alnum c = true -> is_sep c = false.
Proof. each_code_unit c. Qed.

Lemma slug_char_cases c :
  is_slug_char c = true -> is_sep c = false -> is_lower_alnum c = true.
Proof. unfold is_slug_char. intros H Hs. rewrite Hs, orb_false_r in H. exact H. Qed.

Lemma slug_regex_tail_spec s :
  slug_regex_tail s
  = negb (is_empty s) && all is_slug_char s && ends is_lower_alnum s.
Proof.
  induction s as [|c t IH]; [reflexivity|].
  destruct t as [|d t']; [simpl; rewrite andb_true_r, alnum_and_slug_char; reflexivity|].
  change (slug_regex_tail (String c (String d t')))
    with (is_slug_char c && slug_regex_tail (String d t')).
  rewrite IH. simpl. rewrite andb_assoc. reflexivity.
Qed.

(** The regular expression of [isSlugValid], read as a conjunction. *)
Lemma slug_regex_spec s :
  slug_regex s
  = (2 <=? String.length s)%nat && all is_slug_char s
    && starts is_lower_alnum s && ends is_lower_alnum s.
Proof.
  destruct s as [|c t]; [reflexivity|]. unfold slug_regex.
  rewrite slug_regex_tail_spec. destruct t as [|d t'].
  - simpl. unfold is_slug_char.
    destruct (is_lower_alnum c), (is_sep c); reflexivity.
  - change (ends is_lower_alnum (String c (String d t')))
      with (ends is_lower_alnum (String d t')).
    change (all is_slug_char (String c (String d t')))
      with (is_slug_char c && all is_slug_char (String d t')).
    change (starts is_lower_alnum (String c (String d t')))
      with (is_lower_alnum c).
    change (is_empty (String d t')) with false.
    change (2 <=? String.length (String c (String d t')))%nat with true.
    generalize (all is_slug_char (String d t')),
      (ends is_lower_alnum (String d t')).
    intros X E. unfold is_slug_char.
    destruct (is_lower_alnum c), (is_sep c), X, E; reflexivity.
Qed.

(** The successful answers of [isSlugValid]. *)
Lemma isSlugValid_spec (slug0 : string) :
  isSlugValid slug0 = Ok tt
  <-> (3 <= String.length slug0 <= 32)%nat
      /\ all is_slug_char slug0 = true
      /\ starts is_lower_alnum slug0 = true
      /\ ends is_lower_alnum slug0 = true
      /\ ~ In slug0 RESERVED_SLUGS.
Proof.
  pose proof (reserved_spec slug0) as Hr.
  unfold isSlugValid. rewrite slug_regex_spec.
  destruct (is_empty slug0) eqn:Eempty.
  { split; [discriminate|]. destruct slug0; [|discriminate].
    simpl. intros [[H _] _]. lia. }
  destruct (String.length slug0 <? 3)%nat eqn:H3;
    [apply Nat.ltb_lt in H3 | apply Nat.ltb_ge in H3]; cbn [orb].
  { split; [discriminate | lia]. }
  destruct (32 <? String.length slug0)%nat eqn:H32;
    [apply Nat.ltb_lt in H32 | apply Nat.ltb_ge in H32].
  { split; [discriminate | lia]. }
  assert (H2 : (2 <=? String.length slug0)%nat = true) by (apply Nat.leb_le; lia).
  assert (H1 : (1 <? String.length slug0)%nat = true) by (apply Nat.ltb_lt; lia).
  rewrite H2, H1, andb_true_r. cbn [andb].
  destruct (all is_slug_char slug0 && starts is_lower_alnum slug0
            && ends is_lower_alnum slug0) eqn:Ere; cbn [negb].
  - apply andb_true_iff in Ere as [[Ha Hs]%andb_true_iff He].
    destruct (reserved slug0).
    + split; [discriminate|]. intros (_ & _ & _ & _ & Hn). destruct Hn. tauto.
    + split; [|reflexivity]. intros _. repeat split; try assumption; try lia.
      intros Hin. apply Hr in Hin. discriminate.
  - split; [discriminate|].
    intros (_ & Ha & Hs & He & _). rewrite Ha, Hs, He in Ere. discriminate.
Qed.

(** X10: [isSlugValid] accepts a slug exactly when it has 3 to 32 code
    units, all of them in [[a-z0-9_-]], the first and the last in [[a-z0-9]],
    and it is not one of the reserved slugs; and every reserved slug is
    refused as reserved, none of them failing an earlier check. *)
Theorem isSlugValid_accepts (slug0 : string) :
  (isSlugValid slug0 = Ok tt
   <-> (3 <= String.length slug0 <= 32)%nat
       /\ all is_slug_char slug0 = true
       /\ starts is_lower_alnum slug0 = true
       /\ ends is_lower_alnum slug0 = true
       /\ ~ In slug0 RESERVED_SLUGS)
  /\ (isSlugValid slug0 = Err SlugReserved <-> In slug0 RESERVED_SLUGS).
Proof.
  split; [apply isSlugValid_spec|]. split.
  - unfold isSlugValid. destruct (is_empty slug0); [discriminate|].
    destruct (_ || _); [discriminate|]. destruct (_ && _); [discriminate|].
    destruct (reserved slug0) eqn:E; [|discriminate].
    intros _. apply reserved_spec, E.
  - simpl. intros H.
    repeat (destruct H as [<-|H]; [reflexivity|]). contradiction.
Qed.

Lemma starts_alnum s :
  all is_slug_char s = true -> starts is_sep s = false -> is_empty s = false ->
  starts is_lower_alnum s = true.
Proof.
  destruct s as [|c t]; simpl; [discriminate|].
  intros [Hc _]%andb_true_iff Hs _. apply slug_char_cases; assumption.
Qed.

Lemma ends_alnum s :
  all is_slug_char s = true -> ends is_sep s = false -> is_empty s = false ->
  ends is_lower_alnum s = true.
Proof.
  induction s as [|c t IH]; [discriminate|].
  intros [Hc Ht]%andb_true_iff Hs _. destruct t as [|d t'].
  - simpl in *. apply slug_char_cases; assumption.
  - change (ends is_lower_alnum (String d t') = true). apply IH; auto.
Qed.

(** X11: on a sanitized slug the charset check of [isSlugValid] never
    fails: whatever the input, [isSlugValid(sanitizeSlug(input))] is a
    success or one of the errors for an empty, a too short or too long, or a
    reserved slug. *)
Theorem isSlugValid_of_sanitized (input : string) :
  isSlugValid (sanitizeSlug input) = Ok tt
  \/ isSlugValid (sanitizeSlug input) = Err EmptySlug
  \/ isSlugValid (sanitizeSlug input) = Err SlugLengthInvalid
  \/ isSlugValid (sanitizeSlug input) = Err SlugReserved.
Proof.
  pose proof (sanitizeSlug_sanitized input) as H. unfold sanitized in H.
  rewrite !andb_true_iff, !negb_true_iff in H.
  destruct H as [[[[Hall _] _] Hst] Hen].
  unfold isSlugValid.
  destruct (is_empty (sanitizeSlug input)) eqn:Eempty; [auto|].
  destruct (_ || _); [auto|].
  rewrite slug_regex_spec, Hall, (starts_alnum _ Hall Hst Eempty),
    (ends_alnum _ Hall Hen Eempty).
  destruct (2 <=? String.length (sanitizeSlug input))%nat eqn:E2.
  - cbn [andb negb]. destruct (reserved _); auto.
  - apply Nat.leb_gt in E2.
    assert (E1 : (1 <? String.length (sanitizeSlug input))%nat = false)
      by (apply Nat.ltb_ge; lia).
    rewrite E1, andb_false_r. destruct (reserved _); auto.
Qed.

(** X12: the strings [sanitizeSlug] returns unchanged are exactly those over
    [[a-z0-9_-]] without [--], without [__] and without a separator first or
    last; so a slug that [isSlugValid] accepts is unchanged exactly when it
    has no doubled dash and no doubled underscore. *)
Theorem sanitizeSlug_fixed_points (s : string) :
  (sanitizeSlug s = s <-> sanitized s = true)
  /\ (isSlugValid s = Ok tt ->
      (sanitizeSlug s = s
       <-> no_double "-" s = true /\ no_double "_" s = true)).
Proof.
  assert (Hfix : sanitizeSlug s = s <-> sanitized s = true).
  { split; [|apply sanitizeSlug_fixes_sanitized].
    intros H. rewrite <- H. apply sanitizeSlug_sanitized. }
  split; [exact Hfix|].
  intros Hok. apply isSlugValid_spec in Hok as (_ & Ha & Hs & He & _).
  rewrite Hfix. unfold sanitized. rewrite Ha.
  assert (Hs' : starts is_sep s = false).
  { destruct s as [|c t]; [reflexivity|]. simpl in *. apply alnum_not_sep, Hs. }
  assert (He' : ends is_sep s = false).
  { clear Hs Hs' Ha Hfix. induction s as [|c t IH]; [reflexivity|].
    destruct t as [|d t']; [simpl in *; apply alnum_not_sep, He|].
    change (ends is_sep (String d t') = false). apply IH, He. }
  rewrite Hs', He'. simpl. rewrite !andb_true_r. apply andb_true_iff.
Qed.

Lemma sanitizeSlug_fixed_points_witness :
  isSlugValid "my-link_1" = Ok tt /\ sanitizeSlug "my-link_1" = "my-link_1".
Proof.
  split; [reflexivity|].
  apply (proj2 (sanitizeSlug_fixed_points "my-link_1") eq_refl).
  split; reflexivity.
Defined.

(** ** Stored links are well formed *)

Lemma normalizeUrl_ok URL input dest :
  normalizeUrl URL input = Ok dest -> http_href URL dest.
Proof.
  unfold normalizeUrl. destruct (is_empty (trim input)); [discriminate|].
  destruct (URL _) as [u|] eqn:Eu; [|discriminate].
  destruct (existsb _ _) eqn:Ep; simpl; [|discriminate].
  intros [= <-]. eexists. exists u. split; [exact Eu|]. split; [reflexivity|].
  simpl in Ep. rewrite orb_false_r in Ep.
  apply orb_true_iff in Ep as [Ep|Ep]; apply String.eqb_eq in Ep; auto.
Qed.

Lemma readExpiry_ok ex expires : readExpiry ex = Ok expires -> expires <> InvalidDate.
Proof. destruct ex; simpl; intros [= <-]; discriminate. Qed.

Lemma alnum_ends s :
  all is_lower_alnum s = true -> is_empty s = false ->
  starts is_lower_alnum s = true /\ ends is_lower_alnum s = true.
Proof.
  intros Ha He. split.
  - destruct s; [discriminate|]. simpl in *. apply andb_true_iff in Ha. tauto.
  - induction s as [|c t IH]; [discriminate|].
    simpl in Ha. apply andb_true_iff in Ha as [Hc Ht].
    destruct t as [|d t']; [exact Hc|].
    change (ends is_lower_alnum (String d t') = true). apply IH; auto.
Qed.

(** Every candidate of the allocation loop is a slug [isSlugValid]
    accepts. *)
Lemma candidate_valid rnd i : isSlugValid (candidate rnd i) = Ok tt.
Proof.
  destruct (candidate_shape rnd i) as [Hl Ha].
  apply isSlugValid_spec. rewrite Hl.
  destruct (alnum_ends _ Ha (candidate_not_empty rnd i)) as [Hs He].
  repeat split; try lia; try assumption.
  - eauto using all_weaken, lower_alnum_slug_char.
  - intros Hin. apply reserved_spec, reserved_length in Hin. contradiction.
Qed.

Lemma link_ok_autoDisable1 URL now l : link_ok URL l -> link_ok URL (autoDisable1 now l).
Proof.
  unfold autoDisable1. destruct (enabled l && isExpired now l); [|auto].
  intros H. exact H.
Qed.

Lemma Forall_link_ok_sweep URL now st :
  Forall (link_ok URL) (links st) ->
  Forall (link_ok URL) (links (ensureAutoDisableExpired now st)).
Proof.
  rewrite links_ensureAutoDisableExpired.
  induction (links st) as [|l t IH]; simpl; [auto|].
  intros [Hl Ht]%Forall_cons. constructor; auto using link_ok_autoDisable1.
Qed.

Lemma Forall_link_ok_updateLink URL id p st :
  (forall l, link_ok URL l -> link_ok URL (merge l p)) ->
  Forall (link_ok URL) (links st) ->
  Forall (link_ok URL) (links (fst (updateLink id p st))).
Proof.
  intros Hp Hall.
  destruct (updateLink_links id p st) as [->|(idx & l & Hl & Hid & ->)];
    [exact Hall|].
  simpl. apply Forall_insert; [exact Hall|]. apply Hp.
  rewrite Forall_forall in Hall. eauto using list_elem_of_lookup_2.
Qed.

Lemma Forall_List_filter {A} (P : A -> Prop) (p : A -> bool) ls :
  Forall P ls -> Forall P (List.filter p ls).
Proof.
  rewrite !Forall_forall. intros H x Hx. eauto using elem_of_List_filter.
Qed.

Section WellFormed.

Variable URL : string -> option Url.

Lemma createLink_link_ok now newId rnd url raw en ex st st' link :
  createLink URL now newId rnd url raw en ex st = (st', Ok link) ->
  link_ok URL link /\ links st' = link :: links st
  /\ slugExists (slug link) None st = false.
Proof.
  unfold createLink.
  destruct (getCurrentUserId st) as [user|]; [|discriminate].
  destruct (normalizeUrl URL url) as [dest|] eqn:Ed; [|discriminate].
  destruct (readExpiry ex) as [expires|] eqn:Ee; [|discriminate].
  apply normalizeUrl_ok in Ed. apply readExpiry_ok in Ee.
  destruct (is_empty (sanitizeSlug raw)) eqn:Eempty; cbn [negb].
  - destruct (generateSlug_spec 30 rnd st)
      as [(i & Hi & -> & Hf & _)|[-> _]]; [|discriminate].
    rewrite candidate_not_empty. intros [= <- <-].
    unfold free_slug in Hf. apply andb_true_iff in Hf as [Hex _].
    apply negb_true_iff in Hex.
    repeat split; simpl; auto using candidate_valid. lia.
  - destruct (isSlugValid (sanitizeSlug raw)) as [[]|] eqn:Ev; [|discriminate].
    destruct (slugExists (sanitizeSlug raw) None st) eqn:Eex; [discriminate|].
    intros [= <- <-]. repeat split; simpl; auto. lia.
Qed.

Lemma Forall_link_ok_step uid_ok st st' :
  step URL uid_ok st st' -> stored st = links st ->
  Forall (link_ok URL) (links st) -> Forall (link_ok URL) (links st').
Proof.
  intros Hstep Hst Hall. destruct Hstep.
  - apply Forall_link_ok_sweep. exact Hall.
  - unfold shortenSubmit.
    destruct (createLink URL now newId rnd url slug0 en ex st)
      as [st' [link|e]] eqn:Ec; cbn [fst].
    + apply createLink_link_ok in Ec as (Hok & Hl & _).
      apply Forall_link_ok_sweep. rewrite Hl. constructor; assumption.
    + pose proof (createLink_error URL now newId rnd url slug0 en ex st e) as Herr.
      rewrite Ec in Herr. simpl in Herr. rewrite Herr by reflexivity. exact Hall.
  - unfold saveEditFromForm.
    destruct (findLinkById id st) as [l|]; [|exact Hall].
    destruct (normalizeUrl URL url) as [dest|] eqn:Ed; [|exact Hall].
    destruct (isSlugValid (sanitizeSlug slug0)) as [[]|] eqn:Ev; [|exact Hall].
    destruct (slugExists (sanitizeSlug slug0) (Some id) st); [exact Hall|].
    destruct (readExpiry ex) as [expires|] eqn:Ee; [|exact Hall].
    cbn [fst]. do 2 apply Forall_link_ok_sweep.
    apply Forall_link_ok_updateLink; [|exact Hall].
    intros l' (_ & Hc & _ & _). apply normalizeUrl_ok in Ed.
    apply readExpiry_ok in Ee. repeat split; simpl; assumption.
  - unfold removeLink. destruct (findLinkById id st); [|exact Hall].
    apply Forall_link_ok_sweep. unfold deleteLink.
    destruct (_ =? _)%nat; simpl; apply Forall_List_filter, Hall.
  - unfold accessLink, recordClickAndMaybeOpen.
    destruct (findLinkById id st) as [l|] eqn:Ef; [|exact Hall].
    destruct (computeStatus now l); try exact Hall.
    apply Forall_link_ok_sweep, Forall_link_ok_updateLink; [|exact Hall].
    assert (Hl : link_ok URL l).
    { rewrite Forall_forall in Hall. apply Hall.
      unfold findLinkById in Ef. apply find_some in Ef as [Hin _].
      apply list_elem_of_In, Hin. }
    destruct Hl as (_ & Hc & _).
    intros l' (Hv & _ & He & Hu). repeat split; simpl; try assumption.
    destruct (Number_succ_cases (clicks l)) as [[_ ->]|[_ ->]]; lia.
  - unfold toggleLink. destruct (findLinkById id st) as [l|]; [|exact Hall].
    destruct (isExpired now l); [exact Hall|].
    apply Forall_link_ok_sweep, Forall_link_ok_updateLink; [|exact Hall].
    intros l' H. exact H.
  - apply Forall_link_ok_sweep. exact Hall.
  - unfold loadData. apply Forall_link_ok_sweep. simpl. rewrite Hst. exact Hall.
Qed.

Lemma reachable_link_ok uid_ok st :
  reachable URL uid_ok st -> Forall (link_ok URL) (links st).
Proof.
  induction 1 as [|st st' Hr IH Hstep]; [constructor|].
  apply (Forall_link_ok_step uid_ok st); [exact Hstep | | exact IH].
  apply (store_ok_reachable _ _ _ Hr).
Qed.

End WellFormed.

(** ** The range of the counts *)

Lemma Forall_sweep (P : Link -> Prop) now st :
  (forall l, P l -> P (disable l)) ->
  Forall P (links st) -> Forall P (links (ensureAutoDisableExpired now st)).
Proof.
  intros Hd. rewrite links_ensureAutoDisableExpired.
  induction (links st) as [|l t IH]; simpl; [auto|].
  intros [Hl Ht]%Forall_cons. constructor; [|auto].
  unfold autoDisable1. destruct (enabled l && isExpired now l); auto.
Qed.

Lemma Forall_updateLink (P : Link -> Prop) id p st :
  (forall l, link_id l = id -> P l -> P (merge l p)) ->
  Forall P (links st) -> Forall P (links (fst (updateLink id p st))).
Proof.
  intros Hp Hall.
  destruct (updateLink_links id p st) as [->|(idx & l & Hl & Hid & ->)];
    [exact Hall|].
  simpl. apply Forall_insert; [exact Hall|]. apply Hp; [exact Hid|].
  rewrite Forall_forall in Hall. eauto using list_elem_of_lookup_2.
Qed.

Lemma count_ok_step URL uid_ok st st' :
  step URL uid_ok st st' -> stored st = links st ->
  Forall count_ok (links st) -> Forall count_ok (links st').
Proof.
  assert (Hd : forall l, count_ok l -> count_ok (disable l)) by (intros l H; exact H).
  intros Hstep Hst Hall. destruct Hstep.
  - apply Forall_sweep; assumption.
  - unfold shortenSubmit.
    destruct (createLink URL now newId rnd url slug0 en ex st)
      as [st' [link|e]] eqn:Ec; cbn [fst].
    + apply Forall_sweep; [exact Hd|]. revert Ec. unfold createLink.
      destruct (getCurrentUserId st); [|discriminate].
      destruct (normalizeUrl URL url); [|discriminate].
      destruct (readExpiry ex); [|discriminate].
      match goal with |- context [match ?c with Ok _ => _ | Err _ => _ end] =>
        destruct c end; [|discriminate].
      intros [= <- <-]. simpl. constructor; [|exact Hall].
      unfold count_ok, MAX_COUNT. simpl. lia.
    + pose proof (createLink_error URL now newId rnd url slug0 en ex st e) as Herr.
      rewrite Ec in Herr. simpl in Herr. rewrite Herr by reflexivity. exact Hall.
  - unfold saveEditFromForm.
    destruct (findLinkById id st) as [l|]; [|exact Hall].
    destruct (normalizeUrl URL url) as [dest|]; [|exact Hall].
    destruct (isSlugValid (sanitizeSlug slug0)) as [[]|]; [|exact Hall].
    destruct (slugExists (sanitizeSlug slug0) (Some id) st); [exact Hall|].
    destruct (readExpiry ex) as [expires|]; [|exact Hall].
    cbn [fst]. do 2 (apply Forall_sweep; [exact Hd|]).
    apply Forall_updateLink; [|exact Hall]. intros l' _ H. exact H.
  - unfold removeLink. destruct (findLinkById id st); [|exact Hall].
    apply Forall_sweep; [exact Hd|]. unfold deleteLink.
    destruct (_ =? _)%nat; simpl; apply Forall_List_filter, Hall.
  - unfold accessLink, recordClickAndMaybeOpen.
    destruct (findLinkById id st) as [l|] eqn:Ef; [|exact Hall].
    destruct (computeStatus now l); try exact Hall.
    apply Forall_sweep; [exact Hd|]. apply Forall_updateLink; [|exact Hall].
    assert (Hl : count_ok l).
    { rewrite Forall_forall in Hall. apply Hall.
      unfold findLinkById in Ef. apply find_some in Ef as [Hin _].
      apply list_elem_of_In, Hin. }
    intros l' _ _. unfold count_ok in *. simpl.
    destruct (Number_succ_cases (clicks l)) as [[? ->]|[? ->]]; lia.
  - unfold toggleLink. destruct (findLinkById id st) as [l|]; [|exact Hall].
    destruct (isExpired now l); [exact Hall|].
    apply Forall_sweep; [exact Hd|]. apply Forall_updateLink; [|exact Hall].
    intros l' _ H. exact H.
  - apply Forall_sweep; assumption.
  - unfold loadData. apply Forall_sweep; [exact Hd|]. simpl. rewrite Hst.
    exact Hall.
Qed.

(** Every count the core writes is a count from 0 to [2^53]. *)
Lemma clicks_in_range URL uid_ok st l :
  reachable URL uid_ok st -> l ∈ links st -> 0 <= clicks l <= MAX_COUNT.
Proof.
  intros Hr. revert l. apply Forall_forall.
  induction Hr as [|st st' Hr IH Hstep]; [constructor|].
  apply (count_ok_step URL uid_ok st); [exact Hstep | | exact IH].
  apply (store_ok_reachable _ _ _ Hr).
Qed.

(** X13: in every state reached from a fresh profile, every stored slug is
    one that [isSlugValid] accepts: 3 to 32 code units over [[a-z0-9_-]]
    that start and end in [[a-z0-9]], and never a reserved slug. *)
Theorem stored_slugs_valid
    (URL : string -> option Url) (uid_ok : State -> string -> Prop)
    (st : State) (l : Link) :
  reachable URL uid_ok st -> l ∈ links st ->
  isSlugValid (slug l) = Ok tt
  /\ (3 <= String.length (slug l) <= 32)%nat
  /\ reserved (slug l) = false.
Proof.
  intros Hr Hin. pose proof (reachable_link_ok URL uid_ok st Hr) as Hall.
  rewrite Forall_forall in Hall. destruct (Hall l Hin) as (Hv & _).
  split; [exact Hv|].
  pose proof (proj1 (isSlugValid_spec (slug l)) Hv)
    as (Hlen & _ & _ & _ & Hres).
  split; [exact Hlen|].
  destruct (reserved (slug l)) eqn:E; [|reflexivity].
  apply reserved_spec in E. contradiction.
Qed.

(** X14: in every state reached from a fresh profile, every stored link has
    a count of clicks that is not negative, an [expiresAt] that is absent or
    a date (never a string that is not a date), and a destination that
    [new URL] returned with the protocol http or https. *)
Theorem stored_links_well_formed
    (URL : string -> option Url) (uid_ok : State -> string -> Prop)
    (st : State) (l : Link) :
  reachable URL uid_ok st -> l ∈ links st ->
  0 <= clicks l
  /\ (expiresAt l = NoDate \/ exists t, expiresAt l = Millis t)
  /\ http_href URL (originalUrl l).
Proof.
  intros Hr Hin. pose proof (reachable_link_ok URL uid_ok st Hr) as Hall.
  rewrite Forall_forall in Hall. destruct (Hall l Hin) as (_ & Hc & He & Hu).
  split; [exact Hc|]. split; [|exact Hu].
  destruct (expiresAt l); [auto | contradiction | eauto].
Qed.

Lemma stored_slugs_valid_witness :
  slug <$> links two_links = ["abcdef"; "promo"]
  /\ isSlugValid "abcdef" = Ok tt.
Proof.
  split; [reflexivity|].
  apply (stored_slugs_valid URL_table fresh_uid two_links
           (mkLink "lnk_2" "usr_1" "https://example.com/page" "abcdef" 30 NoDate
              true 0) reachable_two_links).
  apply list_elem_of_In. left. reflexivity.
Defined.

Lemma stored_links_well_formed_witness :
  originalUrl <$> links one_link = ["https://example.com/page"]
  /\ http_href URL_table "https://example.com/page".
Proof.
  split; [reflexivity|].
  apply (stored_links_well_formed URL_table fresh_uid one_link
           (mkLink "lnk_1" "usr_1" "https://example.com/page" "promo" 20
              (Millis 100) true 0) reachable_one_link).
  apply list_elem_of_In. left. reflexivity.
Defined.

(** ** Counting clicks *)

Lemma fmap_map_same {B} (g : Link -> B) (f : Link -> Link) ls :
  (forall l, g (f l) = g l) -> g <$> List.map f ls = g <$> ls.
Proof.
  intros Hf. induction ls as [|l t IH]; simpl; [reflexivity|].
  rewrite Hf. f_equal. exact IH.
Qed.

Lemma counter_autoDisable1 now l : counter (autoDisable1 now l) = counter l.
Proof. unfold autoDisable1. destruct (enabled l && isExpired now l); reflexivity. Qed.

Lemma counter_sweep now st :
  counter <$> links (ensureAutoDisableExpired now st) = counter <$> links st.
Proof.
  rewrite links_ensureAutoDisableExpired.
  apply fmap_map_same, counter_autoDisable1.
Qed.

Lemma counter_updateLink id p st :
  p_clicks p = None ->
  counter <$> links (fst (updateLink id p st)) = counter <$> links st.
Proof.
  intros Hp.
  destruct (updateLink_links id p st) as [->|(idx & l & Hl & Hid & ->)];
    [reflexivity|].
  simpl. rewrite list_fmap_insert. apply list_insert_id.
  rewrite list_lookup_fmap, Hl. unfold counter. simpl. rewrite Hp. reflexivity.
Qed.

Lemma counter_filter (p : string -> bool) ls :
  counter <$> List.filter (fun l => p (link_id l)) ls
  = List.filter (fun c => p c.1) (counter <$> ls).
Proof.
  induction ls as [|l t IH]; [reflexivity|].
  cbn [List.filter fmap list_fmap].
  change ((counter l).1) with (link_id l).
  destruct (p (link_id l)); cbn [fmap list_fmap]; [f_equal|]; exact IH.
Qed.

(** X15: only an access counts: an edit, a toggle and a listing leave the
    id and the count of clicks of every link, place by place; a deletion
    removes the entries of the deleted id and leaves the others; a creation
    at most adds the new id with the count 0 in front; and an access either
    changes no count or adds exactly 1 to the count of one link of the id
    accessed. *)
Theorem clicks_change_only_on_access
    (URL : string -> option Url) (now later : Z) (id newId : string)
    (rnd : nat -> nat) (url raw : string) (ex : DateValue) (en : bool)
    (st : State) :
  counter <$> links (fst (saveEditFromForm URL now id url raw ex en st))
  = counter <$> links st
  /\ counter <$> links (fst (toggleLink now later id st)) = counter <$> links st
  /\ counter <$> links (renderLinks now st) = counter <$> links st
  /\ counter <$> links (fst (removeLink now id st))
     = List.filter (fun c => bool_decide (c.1 <> id)) (counter <$> links st)
  /\ (counter <$> links (fst (shortenSubmit URL now later newId rnd url raw en ex st))
      = counter <$> links st
      \/ counter <$> links (fst (shortenSubmit URL now later newId rnd url raw en ex st))
         = (newId, 0) :: (counter <$> links st))
  /\ (counter <$> links (fst (accessLink now later id st)) = counter <$> links st
      \/ exists idx n,
           (counter <$> links st) !! idx = Some (id, n)
           /\ counter <$> links (fst (accessLink now later id st))
              = <[idx := (id, n + 1)]> (counter <$> links st)).
Proof.
  split; [|split; [|split; [|split; [|split]]]].
  - unfold saveEditFromForm.
    destruct (findLinkById id st); [|reflexivity].
    destruct (normalizeUrl URL url); [|reflexivity].
    destruct (isSlugValid _); [|reflexivity].
    destruct (slugExists _ _ _); [reflexivity|].
    destruct (readExpiry ex); [|reflexivity].
    cbn [fst]. unfold renderLinks. rewrite !counter_sweep.
    apply counter_updateLink. reflexivity.
  - unfold toggleLink. destruct (findLinkById id st) as [l|]; [|reflexivity].
    destruct (isExpired now l); [reflexivity|].
    cbn [fst]. unfold renderLinks. rewrite counter_sweep.
    apply counter_updateLink. reflexivity.
  - apply counter_sweep.
  - set (p := fun i : string => bool_decide (i <> id)).
    change (fun c : string * Z => bool_decide (c.1 <> id))
      with (fun c : string * Z => p c.1).
    rewrite <- counter_filter. unfold removeLink.
    destruct (findLinkById id st) as [l|] eqn:Ef; cbn [fst].
    + unfold renderLinks. rewrite counter_sweep. unfold deleteLink.
      destruct (_ =? _)%nat; reflexivity.
    + unfold findLinkById in Ef. unfold p.
      rewrite (filter_all_absent _ _ Ef). reflexivity.
  - unfold shortenSubmit.
    destruct (createLink URL now newId rnd url raw en ex st)
      as [st' [link|e]] eqn:Ec; cbn [fst].
    + right. unfold renderLinks. rewrite counter_sweep.
      revert Ec. unfold createLink.
      destruct (getCurrentUserId st); [|discriminate].
      destruct (normalizeUrl URL url); [|discriminate].
      destruct (readExpiry ex); [|discriminate].
      match goal with |- context [match ?c with Ok _ => _ | Err _ => _ end] =>
        destruct c end; [|discriminate].
      intros [= <- <-]. reflexivity.
    + left. pose proof (createLink_error URL now newId rnd url raw en ex st e) as H.
      rewrite Ec in H. simpl in H. rewrite H; reflexivity.
  - unfold accessLink, recordClickAndMaybeOpen.
    destruct (findLinkById id st) as [l|] eqn:Ef; [|left; reflexivity].
    destruct (computeStatus now l); try (left; reflexivity).
    cbn [fst]. unfold renderLinks. rewrite counter_sweep.
    pose proof (findLinkById_id _ _ _ Ef) as Hid. rewrite Hid.
    destruct (updateLink_found id
                (mkPatch None None None None (Some (Number_succ (clicks l))))
                st l Ef) as (idx & Hfind & -> & _).
    apply list_find_Some in Hfind as (Hl & _ & _).
    assert (Hc : (counter <$> links st) !! idx = Some (id, clicks l)).
    { rewrite list_lookup_fmap, Hl. unfold counter. simpl. rewrite Hid.
      reflexivity. }
    cbn [fst links persistLinks set_links]. rewrite list_fmap_insert.
    change (counter (merge l (mkPatch None None None None
                                (Some (Number_succ (clicks l))))))
      with (link_id l, Number_succ (clicks l)).
    rewrite Hid.
    destruct (Number_succ_cases (clicks l)) as [[_ ->]|[_ ->]].
    + right. exists idx, (clicks l). split; [exact Hc | reflexivity].
    + left. apply list_insert_id, Hc.
Qed.

(** ** Creating and editing *)

(** X16: a link that [createLink] returns is the first of the collection
    and the one [findLinkById] returns for its id; it has the id [uid()]
    gave, the signed-in user as owner, the normalized destination, no clicks,
    the requested [enabled] and expiry, and a slug that [isSlugValid] accepts
    and that no link had, which is the sanitized request when one was made;
    the snapshot is rewritten.  Without a signed-in user nothing is
    created. *)
Theorem createLink_creates
    (URL : string -> option Url) (now : Z) (newId : string) (rnd : nat -> nat)
    (url raw : string) (en : bool) (ex : DateValue) (st st' : State)
    (link : Link) :
  createLink URL now newId rnd url raw en ex st = (st', Ok link) ->
  links st' = link :: links st
  /\ stored st' = links st'
  /\ session st' = session st
  /\ findLinkById newId st' = Some link
  /\ link_id link = newId
  /\ getCurrentUserId st = Some (userId link)
  /\ normalizeUrl URL url = Ok (originalUrl link)
  /\ readExpiry ex = Ok (expiresAt link)
  /\ clicks link = 0 /\ enabled link = en /\ createdAt link = now
  /\ isSlugValid (slug link) = Ok tt
  /\ slugExists (slug link) None st = false
  /\ (sanitizeSlug raw <> "" -> slug link = sanitizeSlug raw).
Proof.
  intros Hc.
  destruct (createLink_link_ok URL _ _ _ _ _ _ _ _ _ _ Hc) as ((Hv & _) & Hl & Hex).
  revert Hc. unfold createLink.
  destruct (getCurrentUserId st) as [user|]; [|discriminate].
  destruct (normalizeUrl URL url) as [dest|]; [|discriminate].
  destruct (readExpiry ex) as [expires|]; [|discriminate].
  destruct (is_empty (sanitizeSlug raw)) eqn:Eempty; cbn [negb].
  - destruct (generateSlug 30 rnd st) as [|c t]; cbn [is_empty]; [discriminate|].
    intros [= <- <-]. simpl. unfold findLinkById. simpl.
    rewrite bool_decide_eq_true_2 by reflexivity.
    repeat split; try assumption.
    intros Hne. destruct (sanitizeSlug raw); [contradiction | discriminate].
  - destruct (isSlugValid (sanitizeSlug raw)); [|discriminate].
    destruct (slugExists (sanitizeSlug raw) None st); [discriminate|].
    intros [= <- <-]. simpl. unfold findLinkById. simpl.
    rewrite bool_decide_eq_true_2 by reflexivity.
    repeat split; assumption.
Qed.

Lemma createLink_creates_witness :
  findLinkById "lnk_3"
    (fst (createLink URL_table 40 "lnk_3" counting "example.com/page" "Sale 2" true
            NoDate two_links))
  = Some (mkLink "lnk_3" "usr_1" "https://example.com/page" "sale-2" 40 NoDate
            true 0).
Proof.
  destruct (createLink_creates URL_table 40 "lnk_3" counting "example.com/page"
              "Sale 2" true NoDate two_links _ _ eq_refl) as (_ & _ & _ & H & _).
  exact H.
Defined.

Lemma not_signed_in_creates_nothing URL now newId rnd url raw en ex st :
  getCurrentUserId st = None ->
  createLink URL now newId rnd url raw en ex st = (st, Err NotSignedIn).
Proof. intros H. unfold createLink. rewrite H. reflexivity. Qed.

Lemma valid_slug_lower s : isSlugValid s = Ok tt -> toLowerCase s = s.
Proof.
  intros H. apply isSlugValid_spec in H as (_ & Ha & _).
  apply slug_chars_lower, Ha.
Qed.

Lemma slugExists_stored l st :
  l ∈ links st -> isSlugValid (slug l) = Ok tt ->
  forall exclude, Some (link_id l) <> exclude ->
  slugExists (slug l) exclude st = true.
Proof.
  intros Hin Hv exclude Hne.
  destruct (slugExists (slug l) exclude st) eqn:E; [reflexivity|].
  pose proof (slugExists_false _ _ _ E l Hin) as H.
  rewrite (valid_slug_lower _ Hv) in H. destruct Hne. auto.
Qed.

(** X17: a slug that a stored link has is refused: for a signed-in user
    with a destination and an expiry that are accepted, [createLink] with a
    request that sanitizes to the slug of a stored link fails with SlugTaken
    and changes nothing, and so does [saveEditFromForm] on a link of another
    id. *)
Theorem taken_slug_refused
    (URL : string -> option Url) (now : Z) (newId id : string)
    (rnd : nat -> nat) (url raw dest : string) (en : bool)
    (ex expires : DateValue) (st : State) (l : Link) :
  l ∈ links st ->
  isSlugValid (slug l) = Ok tt ->
  sanitizeSlug raw = slug l ->
  normalizeUrl URL url = Ok dest ->
  readExpiry ex = Ok expires ->
  (forall user, getCurrentUserId st = Some user ->
     createLink URL now newId rnd url raw en ex st = (st, Err SlugTaken))
  /\ (forall other, findLinkById id st = Some other -> id <> link_id l ->
        saveEditFromForm URL now id url raw ex en st = (st, Err SlugTaken)).
Proof.
  intros Hin Hv Hraw Hd He. split.
  - intros user Hu. unfold createLink. rewrite Hu, Hd, He, Hraw.
    assert (Hne : is_empty (slug l) = false).
    { destruct (slug l); [discriminate Hv | reflexivity]. }
    rewrite Hne, Hv. cbn [negb].
    rewrite (slugExists_stored l st Hin Hv None) by discriminate. reflexivity.
  - intros other Hf Hid. unfold saveEditFromForm. rewrite Hf, Hd, Hraw, Hv.
    rewrite (slugExists_stored l st Hin Hv (Some id)) by congruence.
    reflexivity.
Qed.

Lemma taken_slug_refused_witness :
  createLink URL_table 40 "lnk_3" counting "example.com/page" " PROMO! " true NoDate
    two_links
  = (two_links, Err SlugTaken)
  /\ saveEditFromForm URL_table 40 "lnk_2" "example.com/page" "promo" NoDate true
       two_links
     = (two_links, Err SlugTaken).
Proof.
  destruct (taken_slug_refused URL_table 40 "lnk_3" "lnk_2" counting
              "example.com/page" " PROMO! " "https://example.com/page" true
              NoDate NoDate two_links
              (mkLink "lnk_1" "usr_1" "https://example.com/page" "promo" 20
                 (Millis 100) true 0)) as [H1 _];
    [apply list_elem_of_In; right; left; reflexivity | reflexivity..|].
  destruct (taken_slug_refused URL_table 40 "lnk_3" "lnk_2" counting
              "example.com/page" "promo" "https://example.com/page" true
              NoDate NoDate two_links
              (mkLink "lnk_1" "usr_1" "https://example.com/page" "promo" 20
                 (Millis 100) true 0)) as [_ H2];
    [apply list_elem_of_In; right; left; reflexivity | reflexivity..|].
  split; [exact (H1 "usr_1" eq_refl)|].
  exact (H2 _ eq_refl ltac:(discriminate)).
Defined.






(** ** The slug field and the forms *)

(** X19: what [updateSlugAvailabilityUI] answers, against what the forms
    then do for a signed-in user with an accepted destination and expiry.
    For a field that sanitizes to a slug that is not empty, it answers ok
    exactly when [createLink] creates a link, which then has the slug it
    returned, and, with the edited id left out, exactly when
    [saveEditFromForm] saves.  For a field that sanitizes to the empty slug
    (a blank field, or one such as [!!!]) it answers ok with the slug [""]
    and shows nothing; [createLink] then either stores a link with one of
    the 30 candidates of the allocation loop as slug, never [""], or fails
    with the allocation error, and [saveEditFromForm] fails with
    EmptySlug. *)
Theorem slug_field_agrees
    (URL : string -> option Url) (now : Z) (newId id : string)
    (rnd : nat -> nat) (url raw user dest : string) (en : bool)
    (ex expires : DateValue) (st : State) (edited : Link) :
  getCurrentUserId st = Some user ->
  findLinkById id st = Some edited ->
  normalizeUrl URL url = Ok dest ->
  readExpiry ex = Ok expires ->
  (sanitizeSlug raw <> "" ->
   ((updateSlugAvailabilityUI raw None st).1.1 = true
    <-> exists link,
          snd (createLink URL now newId rnd url raw en ex st) = Ok link
          /\ slug link = (updateSlugAvailabilityUI raw None st).1.2)
   /\ ((updateSlugAvailabilityUI raw (Some id) st).1.1 = true
       <-> snd (saveEditFromForm URL now id url raw ex en st) = Ok tt))
  /\ (sanitizeSlug raw = "" ->
      updateSlugAvailabilityUI raw None st = (true, "", NoStatus)
      /\ updateSlugAvailabilityUI raw (Some id) st = (true, "", NoStatus)
      /\ saveEditFromForm URL now id url raw ex en st = (st, Err EmptySlug)
      /\ ((exists link i,
             snd (createLink URL now newId rnd url raw en ex st) = Ok link
             /\ (i < 30)%nat /\ slug link = candidate rnd i
             /\ slug link <> (updateSlugAvailabilityUI raw None st).1.2)
          \/ createLink URL now newId rnd url raw en ex st
             = (st, Err SlugAllocationExhausted))).
Proof.
  intros Hu Hf Hd He. unfold updateSlugAvailabilityUI, createLink, saveEditFromForm.
  rewrite Hu, Hf, Hd, He. split.
  - intros Hne.
    destruct (sanitizeSlug raw) as [|c t] eqn:Es; [contradiction|].
    cbn [is_empty negb]. rewrite <- Es in *.
    destruct (isSlugValid (sanitizeSlug raw)) as [[]|e]; simpl.
    + split.
      * destruct (slugExists (sanitizeSlug raw) None st); simpl.
        -- split; [discriminate | intros (link & H & _); discriminate].
        -- split; [eauto | reflexivity].
      * destruct (slugExists (sanitizeSlug raw) (Some id) st); simpl.
        -- split; discriminate.
        -- split; reflexivity.
    + split; (split; [discriminate|]); [intros (link & H & _)|intros H];
        discriminate.
  - intros ->. do 3 (split; [reflexivity|]). cbn [is_empty negb].
    destruct (generateSlug_spec 30 rnd st)
      as [(i & Hi & -> & _)|[-> _]]; [|right; reflexivity].
    left. rewrite candidate_not_empty. eexists. exists i.
    split; [reflexivity|]. split; [exact Hi|]. split; [reflexivity|].
    simpl. intros Hempty.
    pose proof (candidate_not_empty rnd i) as Hne.
    rewrite Hempty in Hne. discriminate.
Qed.

Lemma slug_field_agrees_witness :
  updateSlugAvailabilityUI "Promo" None two_links = (false, "promo", Unavailable)
  /\ updateSlugAvailabilityUI "Promo" (Some "lnk_1") two_links
     = (true, "promo", Available)
  /\ snd (saveEditFromForm URL_table 40 "lnk_1" "example.com/page" "Promo" NoDate
            true two_links) = Ok tt
  /\ updateSlugAvailabilityUI "!!!" None two_links = (true, "", NoStatus)
  /\ slug <$> links (fst (createLink URL_table 40 "lnk_3" counting
                            "example.com/page" "!!!" true NoDate two_links))
     = ["ghijkl"; "abcdef"; "promo"]
  /\ saveEditFromForm URL_table 40 "lnk_1" "example.com/page" "!!!" NoDate true
       two_links
     = (two_links, Err EmptySlug).
Proof.
  split; [reflexivity|]. split; [reflexivity|].
  destruct (slug_field_agrees URL_table 40 "lnk_3" "lnk_1" counting
              "example.com/page" "Promo" "usr_1" "https://example.com/page" true
              NoDate NoDate two_links _ eq_refl eq_refl eq_refl eq_refl)
    as [H _].
  destruct (slug_field_agrees URL_table 40 "lnk_3" "lnk_1" counting
              "example.com/page" "!!!" "usr_1" "https://example.com/page" true
              NoDate NoDate two_links _ eq_refl eq_refl eq_refl eq_refl)
    as [_ H'].
  destruct (H ltac:(discriminate)) as [_ H2].
  destruct (H' eq_refl) as (H3 & _ & H4 & _).
  split; [apply H2; reflexivity|].
  split; [exact H3|]. split; [reflexivity | exact H4].
Defined.

(** ** The dashboard *)

Lemma prefix_spec q h : String.prefix q h = true -> exists b, h = q +:+ b.
Proof.
  revert h. induction q as [|x q IH]; intros h Hp; [exists h; reflexivity|].
  destruct h as [|y h]; simpl in Hp; [discriminate|].
  destruct (ascii_dec x y) as [->|]; [|discriminate].
  destruct (IH h Hp) as [b ->]. exists b. reflexivity.
Qed.

(** [includes] is the test that [q] occurs in [hay]. *)
Lemma includes_spec hay q :
  includes hay q = true <-> exists a b, hay = a +:+ q +:+ b.
Proof.
  split.
  - induction hay as [|c t IH]; cbn [includes].
    + rewrite orb_false_r. intros [b Hb]%prefix_spec. exists "", b. exact Hb.
    + intros [H|H]%orb_true_iff.
      * apply prefix_spec in H as [b Hb]. exists "", b. exact Hb.
      * destruct (IH H) as (a & b & ->). exists (String c a), b. reflexivity.
  - intros (a & b & ->). induction a as [|c a IH].
    + rewrite append_empty_l.
      destruct (q +:+ b) eqn:E; cbn [includes]; rewrite <- E, prefix_append;
        reflexivity.
    + rewrite append_cons. cbn [includes]. rewrite IH. apply orb_true_r.
Qed.




(** The link [/promo] expires between the sweep, at instant 100, and the
    filter, at instant 101: the row of the filter [expired] shows a link that
    is still enabled, and the filter [active] shows no row. *)
Example row_expires_between_readings :
  renderedLinks "" "expired" 100 101 one_link
  = [mkLink "lnk_1" "usr_1" "https://example.com/page" "promo" 20 (Millis 100)
       true 0]
  /\ renderedLinks "" "active" 100 101 one_link = []
  /\ renderedLinks "" "active" 100 100 one_link
     = [mkLink "lnk_1" "usr_1" "https://example.com/page" "promo" 20 (Millis 100)
          true 0].
Proof. repeat split; reflexivity. Qed.

(** X21: the search of the dashboard is a test, regardless of the case of
    the query and of white space around it, that the query occurs in the slug
    followed by a space and the destination; so a link is found by its slug,
    typed in any case. *)
Theorem matchesFilter_search (query : string) (now : Z) (link : Link) :
  (matchesFilter query "all" now link = true
   <-> toLowerCase (trim query) = ""
       \/ exists a b,
            toLowerCase (slug link +:+ " " +:+ originalUrl link)
            = a +:+ toLowerCase (trim query) +:+ b)
  /\ (toLowerCase (trim query) = toLowerCase (slug link) ->
      matchesFilter query "all" now link = true).
Proof.
  assert (H : matchesFilter query "all" now link = true
              <-> toLowerCase (trim query) = ""
                  \/ exists a b,
                       toLowerCase (slug link +:+ " " +:+ originalUrl link)
                       = a +:+ toLowerCase (trim query) +:+ b).
  { unfold matchesFilter. rewrite <- includes_spec.
    destruct (toLowerCase (trim query)) as [|c t] eqn:Eq; cbn [is_empty negb andb].
    - simpl. tauto.
    - destruct (includes _ (String c t)); simpl; split; auto.
      intros [|]; discriminate. }
  split; [exact H|].
  intros Hq. apply H. right. exists "", (toLowerCase (" " +:+ originalUrl link)).
  rewrite Hq, append_empty_l. unfold toLowerCase. apply map_append.
Qed.

(** ** Accounts *)

Lemma takeWhile_dropWhile p s : takeWhile p s +:+ dropWhile p s = s.
Proof.
  induction s as [|c t IH]; [reflexivity|]. simpl.
  destruct (p c); [|reflexivity]. rewrite append_cons, IH. reflexivity.
Qed.

Lemma all_takeWhile p s : all p (takeWhile p s) = true.
Proof.
  induction s as [|c t IH]; [reflexivity|]. simpl.
  destruct (p c) eqn:E; [|reflexivity]. simpl. rewrite E. exact IH.
Qed.

Lemma run_then_stop p a x r :
  all p a = true -> p x = false ->
  takeWhile p (a +:+ String x r) = a
  /\ dropWhile p (a +:+ String x r) = String x r.
Proof.
  intros Ha Hx. induction a as [|c a IH].
  - rewrite append_empty_l. simpl. rewrite Hx. auto.
  - simpl in Ha. apply andb_true_iff in Ha as [Hc Ha].
    rewrite append_cons. simpl. rewrite Hc.
    destruct (IH Ha) as [-> ->]. auto.
Qed.

Lemma dot_before_last_spec t :
  dot_before_last t = true
  <-> exists b c, t = b +:+ "." +:+ c /\ c <> "".
Proof.
  split.
  - induction t as [|x t IH]; [discriminate|].
    destruct t as [|y r]; [discriminate|].
    change (dot_before_last (String x (String y r)))
      with (Ascii.eqb x "." || dot_before_last (String y r)).
    intros [H|H]%orb_true_iff.
    + apply Ascii.eqb_eq in H. subst x. exists "", (String y r).
      split; [reflexivity | discriminate].
    + destruct (IH H) as (b & c & -> & Hc). exists (String x b), c. auto.
  - intros (b & c & -> & Hc). induction b as [|x b IH].
    + rewrite append_empty_l, append_cons, append_empty_l.
      destruct c; [contradiction | reflexivity].
    + rewrite append_cons.
      destruct (b +:+ "." +:+ c) as [|y r] eqn:E; [discriminate IH|].
      change (dot_before_last (String x (String y r)))
        with (Ascii.eqb x "." || dot_before_last (String y r)).
      rewrite IH. apply orb_true_r.
Qed.

(** X22: the test of [signIn] on an address accepts exactly the strings
    made of a local part, [@], and a domain with a dot inside it, the three
    pieces around [@] and that dot being non-empty and free of white space
    and of [@]. *)
Theorem email_regex_accepts (s : string) :
  email_regex s = true
  <-> exists a b c,
        s = a +:+ "@" +:+ b +:+ "." +:+ c
        /\ a <> "" /\ b <> "" /\ c <> ""
        /\ all is_email_char a = true
        /\ all is_email_char b = true
        /\ all is_email_char c = true.
Proof.
  unfold email_regex. split.
  - pose proof (takeWhile_dropWhile is_email_char s) as Hs.
    pose proof (all_takeWhile is_email_char s) as Ha.
    destruct (dropWhile is_email_char s) as [|x rest]; [discriminate|].
    rewrite !andb_true_iff, negb_true_iff.
    intros [[[Hx Hne] Hall] Hdot]. apply Ascii.eqb_eq in Hx. subst x.
    destruct rest as [|y t]; [discriminate|].
    apply dot_before_last_spec in Hdot as (b & c & -> & Hc).
    exists (takeWhile is_email_char s), (String y b), c.
    change (all is_email_char (String y b +:+ "." +:+ c) = true) in Hall.
    rewrite !all_append in Hall.
    apply andb_true_iff in Hall as [Hb [_ Hcc]%andb_true_iff].
    repeat split; try assumption; try discriminate.
    + symmetry. exact Hs.
    + intros E. rewrite E in Hne. discriminate.
  - intros (a & b & c & -> & Hna & Hnb & Hnc & Ha & Hb & Hc).
    change (a +:+ "@" +:+ b +:+ "." +:+ c)
      with (a +:+ String "@" (b +:+ "." +:+ c)).
    destruct (run_then_stop is_email_char a "@" (b +:+ "." +:+ c) Ha eq_refl)
      as [-> ->].
    rewrite Ascii.eqb_refl, !all_append, Hb, Hc. simpl.
    destruct a; [contradiction|]. simpl.
    destruct b as [|y b]; [contradiction|]. rewrite append_cons.
    apply dot_before_last_spec. eauto.
Qed.

Lemma email_regex_empty : email_regex "" = false.
Proof. reflexivity. Qed.

Lemma find_email_spec e us u :
  find (fun u => bool_decide (email u = e)) us = Some u -> u ∈ us /\ email u = e.
Proof.
  intros H. apply find_some in H as [Hin H].
  apply bool_decide_eq_true in H. split; [apply list_elem_of_In, Hin | exact H].
Qed.

Lemma find_email_none e us :
  find (fun u => bool_decide (email u = e)) us = None -> e ∉ (email <$> us).
Proof.
  intros H (u & -> & Hin)%list_elem_of_fmap.
  apply list_elem_of_In in Hin.
  pose proof (find_none _ _ H u Hin) as Hu. simpl in Hu.
  apply bool_decide_eq_false in Hu. contradiction.
Qed.

Lemma find_email_app e us u :
  find (fun u => bool_decide (email u = e)) us = None -> email u = e ->
  find (fun u => bool_decide (email u = e)) (us ++ [u])%list = Some u.
Proof.
  intros Hnone He. induction us as [|x t IH]; simpl in *.
  - rewrite bool_decide_eq_true_2 by assumption. reflexivity.
  - destruct (bool_decide (email x = e)); [discriminate | auto].
Qed.

(** X23: [signIn] refuses an address that fails the test and then changes
    nothing; otherwise it opens the session of the user whose email is the
    address trimmed and lowercased: the stored user of that email when there
    is one, the list of users being left as it is, and else a new user added
    at the end of the list. *)
Theorem signIn_contract
    (now : Z) (newId email0 nameOptional : string) (acc : Accounts) :
  let normalized := toLowerCase (trim email0) in
  let acc' := fst (signIn now newId email0 nameOptional acc) in
  (email_regex normalized = false ->
   signIn now newId email0 nameOptional acc = (acc, None))
  /\ (email_regex normalized = true ->
      exists user,
        snd (signIn now newId email0 nameOptional acc) = Some user
        /\ email user = normalized
        /\ user ∈ users acc'
        /\ account_session acc' = Some (user_id user, normalized)
        /\ stored_session acc' = account_session acc'
        /\ (find (fun u => bool_decide (email u = normalized)) (users acc)
            = Some user
            /\ users acc' = users acc
            \/ ((normalized ∉ (email <$> users acc))
                /\ user = mkUser newId normalized (trim nameOptional) now
                /\ users acc' = (users acc ++ [user])%list
                /\ stored_users acc' = users acc'))).
Proof.
  intros normalized acc'. subst acc'. unfold signIn. fold normalized. split.
  - intros ->. rewrite orb_true_r. reflexivity.
  - intros Hre. rewrite Hre.
    destruct normalized as [|c t] eqn:En; [discriminate Hre|].
    cbn [is_empty negb orb]. rewrite <- En in *.
    destruct (find _ (users acc)) as [user|] eqn:Ef.
    + destruct (find_email_spec _ _ _ Ef) as [Hin He].
      exists user. simpl. rewrite He. repeat split; auto.
    + exists (mkUser newId normalized (trim nameOptional) now). simpl.
      repeat split; try reflexivity.
      * apply elem_of_app. right. apply list_elem_of_In. left. reflexivity.
      * right. split; [apply find_email_none, Ef|]. auto.
Qed.

(** X24: there is one account per address: [signIn] keeps the emails of
    the users free of repetition, and a second [signIn] with an address that
    differs only in case and in white space around it, also after a
    [signOut], returns the user the first one returned and adds no user. *)
Theorem signIn_one_account
    (now now' : Z) (newId newId' email0 email1 name0 name1 : string)
    (acc : Accounts) (user : User) :
  NoDup (email <$> users acc) ->
  snd (signIn now newId email0 name0 acc) = Some user ->
  toLowerCase (trim email1) = toLowerCase (trim email0) ->
  let acc' := fst (signIn now newId email0 name0 acc) in
  NoDup (email <$> users acc')
  /\ snd (signIn now' newId' email1 name1 acc') = Some user
  /\ snd (signIn now' newId' email1 name1 (signOut acc')) = Some user
  /\ users (fst (signIn now' newId' email1 name1 acc')) = users acc'.
Proof.
  intros Hnd Hfirst Heq acc'. subst acc'.
  assert (Hfound :
    find (fun u => bool_decide (email u = toLowerCase (trim email0)))
      (users (fst (signIn now newId email0 name0 acc))) = Some user
    /\ NoDup (email <$> users (fst (signIn now newId email0 name0 acc)))
    /\ is_empty (toLowerCase (trim email0))
       || negb (email_regex (toLowerCase (trim email0))) = false).
  { revert Hfirst. unfold signIn.
    destruct (is_empty _ || negb _) eqn:Eok; [discriminate|].
    destruct (find _ (users acc)) as [u|] eqn:Ef; simpl; intros [= <-].
    - auto.
    - split; [apply find_email_app; [exact Ef | reflexivity]|].
      split; [|reflexivity].
      rewrite fmap_app. apply NoDup_app. split; [exact Hnd|].
      split; [|apply NoDup_singleton].
      intros e He Hin. apply list_elem_of_In in Hin as [<-|[]].
      apply find_email_none in Ef. contradiction. }
  destruct Hfound as (Hfind & Hnd' & Hok).
  split; [exact Hnd'|].
  unfold signIn at 1 3 5. rewrite Heq, Hok.
  unfold signOut. cbn [users]. rewrite Hfind. auto.
Qed.

Lemma signIn_one_account_witness :
  let acc := fst (signIn 5 "usr_1" " Ann@Example.com " "Ann"
                    (mkAccounts [] None [] None)) in
  email <$> users acc = ["ann@example.com"]
  /\ user_id <$> snd (signIn 9 "usr_2" "ANN@example.COM" "" acc) = Some "usr_1".
Proof.
  split; [reflexivity|].
  destruct (signIn_one_account 5 9 "usr_1" "usr_2" " Ann@Example.com "
              "ANN@example.COM" "Ann" "" (mkAccounts [] None [] None)
              (mkUser "usr_1" "ann@example.com" "Ann" 5)
              ltac:(constructor) eq_refl eq_refl) as (_ & H & _).
  rewrite H. reflexivity.
Defined.

(** ** The theme *)

(** X25: [toggleTheme] inverts the dark class and stores the mode it chose,
    so that [loadTheme] on the next load, whatever the system prefers then,
    gives the same class; two toggles give the class back; and with no stored
    mode, or the mode [system], [loadTheme] follows the system. *)
Theorem toggleTheme_persists (prefersDark prefersDark' : bool) (th : Theme) :
  dark (toggleTheme prefersDark th) = negb (dark th)
  /\ stored_theme (toggleTheme prefersDark th)
     = Some (if dark th then "light" else "dark")
  /\ dark (loadTheme prefersDark' (toggleTheme prefersDark th))
     = dark (toggleTheme prefersDark th)
  /\ dark (toggleTheme prefersDark' (toggleTheme prefersDark th)) = dark th
  /\ (stored_theme th = None \/ stored_theme th = Some "system" ->
      dark (loadTheme prefersDark th) = prefersDark).
Proof.
  unfold toggleTheme, loadTheme, applyTheme.
  repeat split; try (destruct (dark th); reflexivity).
  intros [->| ->]; reflexivity.
Qed.

(** ** The snapshot and the short URL *)



Lemma getShortUrl_inj a b : getShortUrl a = getShortUrl b -> a = b.
Proof.
  unfold getShortUrl, BASE_SHORT_DOMAIN. rewrite !append_cons, !append_empty_l.
  intros [= H]. exact H.
Qed.

(** X27: [getShortUrl] gives different short URLs for different slugs; so
    in every state reached from a fresh profile, with [uid()] returning ids
    that no link has, two links at different places of the collection never
    have the same short URL. *)
Theorem short_urls_distinct
    (URL : string -> option Url) (uid_ok : State -> string -> Prop)
    (st : State) (i j : nat) (li lj : Link) :
  reachable URL uid_ok st ->
  (forall s id, uid_ok s id -> fresh_uid s id) ->
  links st !! i = Some li -> links st !! j = Some lj -> i <> j ->
  (forall a b, getShortUrl a = getShortUrl b -> a = b)
  /\ getShortUrl (slug li) <> getShortUrl (slug lj).
Proof.
  intros Hr Hfresh Hi Hj Hne. split; [apply getShortUrl_inj|].
  intros Heq. apply getShortUrl_inj in Heq.
  destruct (store_ok_reachable _ _ _ Hr) as [Hok Hids].
  apply (store_ok_slugs_unique st Hok (Hids Hfresh) i j li lj Hi Hj Hne).
  unfold same_slug. rewrite Heq. reflexivity.
Qed.

Lemma short_urls_distinct_witness :
  getShortUrl <$> (slug <$> links two_links)
  = ["https://sho.rt/abcdef"; "https://sho.rt/promo"]
  /\ getShortUrl "abcdef" <> getShortUrl "promo".
Proof.
  split; [reflexivity|].
  exact (proj2 (short_urls_distinct URL_table fresh_uid two_links 0 1
                  (mkLink "lnk_2" "usr_1" "https://example.com/page" "abcdef" 30
                     NoDate true 0)
                  (mkLink "lnk_1" "usr_1" "https://example.com/page" "promo" 20
                     (Millis 100) true 0)
                  reachable_two_links (fun s id H => H) eq_refl eq_refl
                  ltac:(discriminate))).
Defined.
